(** * getDocWrapper: a caching and retrying front end to Firestore's getDoc

    Shallow embedding of [src/index.ts].  The two functions of the module,
    [requestDoc] (the retrying fetcher) and [getDocWrapper] (the cache
    decision engine and entry point), are written in a small state and error
    monad over a [World] that holds the IndexedDB store, the remote
    Firestore, the clock, and a trace of the calls made on them. *)

From Stdlib Require Import ZArith String List Bool Lia.
From stdpp Require Import base option gmap strings.

Local Open Scope string_scope.
Local Open Scope list_scope.

(** ** JavaScript numbers and truthiness

    Timestamps and durations are millisecond counts: the finite numbers are
    the integers.  [Number.POSITIVE_INFINITY] is a legal time to live and
    [NaN] is what arithmetic on [undefined] yields, so both are kept. *)
Module JS.

Inductive number : Type :=
| Fin (z : Z)
| PosInf
| NegInf
| NaN.

(** [ToNumber]: [undefined] converts to [NaN]. *)
Definition toNumber (v : option number) : number :=
  match v with
  | Some n => n
  | None => NaN
  end.

(** The binary [-] operator. *)
Definition sub (a b : number) : number :=
  match a, b with
  | NaN, _ | _, NaN => NaN
  | Fin x, Fin y => Fin (x - y)
  | PosInf, PosInf => NaN
  | NegInf, NegInf => NaN
  | PosInf, _ => PosInf
  | NegInf, _ => NegInf
  | Fin _, PosInf => NegInf
  | Fin _, NegInf => PosInf
  end.

(** The [<] operator: any comparison with [NaN] is [false]. *)
Definition lt (a b : number) : bool :=
  match a, b with
  | NaN, _ | _, NaN => false
  | Fin x, Fin y => (x <? y)%Z
  | Fin _, PosInf => true
  | NegInf, Fin _ => true
  | NegInf, PosInf => true
  | _, _ => false
  end.

(** [ToBoolean] on numbers: [0] and [NaN] are falsy. *)
Definition truthy (n : number) : bool :=
  match n with
  | Fin z => negb (z =? 0)%Z
  | NaN => false
  | PosInf | NegInf => true
  end.

(** [ToBoolean] on an optional number: [undefined] is falsy. *)
Definition truthy_opt (v : option number) : bool :=
  match v with
  | Some n => truthy n
  | None => false
  end.

(** [ToBoolean] on an optional boolean. *)
Definition truthy_bool (v : option bool) : bool :=
  match v with
  | Some b => b
  | None => false
  end.

(** [v || d] on numbers. *)
Definition or_default (v : option number) (d : number) : number :=
  match v with
  | Some n => if truthy n then n else d
  | None => d
  end.

(** [Array.prototype.includes] on a [string[]], searched for [err?.code]
    (which may be [undefined], never an element of a [string[]]). *)
Definition includes (l : list string) (v : option string) : bool :=
  match v with
  | Some s => existsb (String.eqb s) l
  | None => false
  end.

End JS.

(** ** Data model *)

(** [LooseObject]: a document payload, opaque to the wrapper. *)
Definition LooseObject : Type := list (string * string).

(** A [DocumentSnapshot]; [data()] is [undefined] for a missing document. *)
Record DocumentSnapshot : Type := createDoc {
  data : option LooseObject
}.

(** The entry kept per path in the store (the literal [newDocEntry]). *)
Record CacheEntry : Type := mkEntry {
  doc : option LooseObject;
  fetchedAt : Z;
  persistentCacheTime : option JS.number
}.

Record CacheTime : Type := mkCacheTime {
  locked : option bool;
  time : option JS.number;
  bypassLockedTime : option bool
}.

Record CacheOptions : Type := mkCacheOptions {
  enabled : option bool;
  cacheTime : option CacheTime;
  forceRefresh : option bool
}.

Record RetryOptions : Type := mkRetryOptions {
  retry_enabled : option bool;
  maxRetries : option JS.number;
  retryDelay : option JS.number;
  retryOnErrorCode : option (list string)
}.

Record Options : Type := mkOptions {
  cacheOptions : option CacheOptions;
  retryOptions : option RetryOptions
}.

(** Optional chaining, [o?.f] and [o?.f?.g]. *)
Definition chain {A B : Type} (o : option A) (f : A -> option B) : option B :=
  match o with
  | Some a => f a
  | None => None
  end.

Notation "o ?. f" := (chain o f) (at level 15, left associativity, format "o ?. f").

(** ** Errors, events and the world *)

(** What Firestore rejects with; only its [code] is ever looked at. *)
Record FirestoreError : Type := mkFirestoreError {
  code : option string
}.

(** What idb-keyval rejects with (a [DOMException], kept by name). *)
Record StoreError : Type := mkStoreError {
  name : string
}.

Inductive Error : Type :=
| ErrRemote (e : FirestoreError)
| ErrNotRetryable
| ErrStore (e : StoreError).

(** The message of the error synthesized at line 51. *)
Definition notRetryableMessage : string :=
  "Firestore threw an error but its code was not in the list of error codes to retry on".

(** [err?.code] *)
Definition error_code (err : Error) : option string :=
  match err with
  | ErrRemote e => code e
  | ErrNotRetryable => None
  | ErrStore _ => None
  end.

Inductive StoreOp : Type := OpGet | OpSet | OpDel.

(** The calls made on the collaborators, in program order. *)
Inductive Event : Type :=
| EvGet (path : string)
| EvSet (path : string) (entry : CacheEntry)
| EvDel (path : string)
| EvGetDoc (path : string)
| EvTimeout (ms : JS.number).

(** The environment of a call.  [faults] says which store operations fail,
    each by rejecting the promise it returns; [throws_on_open] says that the
    lookup, when it fails, fails earlier than that: by an error thrown
    synchronously while the store is opened (line 78), not by a rejection of
    [get]; [clock] is the sequence of values [Date.now()] returns and [ticks] how
    many were read; [remote k p] is what the [k]-th call of [getDoc] answers
    on path [p] and [calls] how many were made; [unhandled] collects the
    rejections of promises nobody awaits. *)
Record World : Type := mkWorld {
  store : gmap string CacheEntry;
  faults : StoreOp -> option StoreError;
  throws_on_open : bool;
  clock : nat -> Z;
  ticks : nat;
  remote : nat -> string -> FirestoreError + DocumentSnapshot;
  calls : nat;
  trace : list Event;
  unhandled : list Error
}.

Definition log (ev : Event) (w : World) : World :=
  mkWorld (store w) (faults w) (throws_on_open w) (clock w) (ticks w) (remote w) (calls w)
          (trace w ++ [ev]) (unhandled w).

Definition with_store (s : gmap string CacheEntry) (w : World) : World :=
  mkWorld s (faults w) (throws_on_open w) (clock w) (ticks w) (remote w) (calls w)
          (trace w) (unhandled w).

Definition tick (w : World) : World :=
  mkWorld (store w) (faults w) (throws_on_open w) (clock w) (S (ticks w)) (remote w) (calls w)
          (trace w) (unhandled w).

Definition called (w : World) : World :=
  mkWorld (store w) (faults w) (throws_on_open w) (clock w) (ticks w) (remote w) (S (calls w))
          (trace w) (unhandled w).

Definition drop_rejection (e : Error) (w : World) : World :=
  mkWorld (store w) (faults w) (throws_on_open w) (clock w) (ticks w) (remote w) (calls w)
          (trace w) (unhandled w ++ [e]).

(** ** The monad of asynchronous code

    An awaited promise either fulfils, rejects, or never settles ([Hang],
    reached only when the retry loop runs out of [fuel]). *)
Inductive Res (A : Type) : Type :=
| Ok (a : A)
| Err (e : Error)
| Hang.

Arguments Ok {A} a.
Arguments Err {A} e.
Arguments Hang {A}.

Definition M (A : Type) : Type := World -> Res A * World.

Definition ret {A : Type} (a : A) : M A := fun w => (Ok a, w).

Definition throw {A : Type} (e : Error) : M A := fun w => (Err e, w).

Definition hang {A : Type} : M A := fun w => (Hang, w).

Definition bind {A B : Type} (m : M A) (k : A -> M B) : M B :=
  fun w =>
    match m w with
    | (Ok a, w') => k a w'
    | (Err e, w') => (Err e, w')
    | (Hang, w') => (Hang, w')
    end.

(** [try { m } catch (err) { h err }] *)
Definition try_catch {A : Type} (m : M A) (h : Error -> M A) : M A :=
  fun w =>
    match m w with
    | (Ok a, w') => (Ok a, w')
    | (Err e, w') => h e w'
    | (Hang, w') => (Hang, w')
    end.

(** A promise that is started and neither awaited nor chained: the caller
    goes on, and a rejection has no handler. *)
Definition floating (m : M unit) : M unit :=
  fun w =>
    match m w with
    | (Ok _, w') => (Ok tt, w')
    | (Err e, w') => (Ok tt, drop_rejection e w')
    | (Hang, w') => (Ok tt, w')
    end.

Declare Scope async_scope.
Delimit Scope async_scope with async.
Notation "x <- m ;; k" := (bind m (fun x => k))
  (at level 100, m at next level, right associativity) : async_scope.
Notation "m ;;; k" := (bind m (fun _ => k))
  (at level 100, right associativity) : async_scope.
Local Open Scope async_scope.

(** ** The collaborators *)

(** idb-keyval [createStore("firestoreWrapperCache", "docs")] (line 78):
    it opens the database on the spot, and that is where the lookup fails
    when it fails by a synchronous throw. *)
Definition createStore : M unit :=
  fun w =>
    match faults w OpGet with
    | Some e => if throws_on_open w then (Err (ErrStore e), w) else (Ok tt, w)
    | None => (Ok tt, w)
    end.

(** idb-keyval [get(path, firestoreWrapperCache)] *)
Definition get (path : string) : M (option CacheEntry) :=
  fun w =>
    match faults w OpGet with
    | Some e => (Err (ErrStore e), log (EvGet path) w)
    | None => (Ok (store w !! path), log (EvGet path) w)
    end.

(** idb-keyval [set(path, entry, firestoreWrapperCache)] *)
Definition set (path : string) (entry : CacheEntry) : M unit :=
  fun w =>
    match faults w OpSet with
    | Some e => (Err (ErrStore e), log (EvSet path entry) w)
    | None => (Ok tt, with_store (<[path := entry]> (store w)) (log (EvSet path entry) w))
    end.

(** idb-keyval [del(path, firestoreWrapperCache)] *)
Definition del (path : string) : M unit :=
  fun w =>
    match faults w OpDel with
    | Some e => (Err (ErrStore e), log (EvDel path) w)
    | None => (Ok tt, with_store (delete path (store w)) (log (EvDel path) w))
    end.

(** [getDoc(docRef(db, path))] *)
Definition getDoc (path : string) : M DocumentSnapshot :=
  fun w =>
    match remote w (calls w) path with
    | inl e => (Err (ErrRemote e), called (log (EvGetDoc path) w))
    | inr snap => (Ok snap, called (log (EvGetDoc path) w))
    end.

(** [Date.now()] *)
Definition Date_now : M Z :=
  fun w => (Ok (clock w (ticks w)), tick w).

(** [timeout(ms)] *)
Definition timeout (ms : JS.number) : M unit :=
  fun w => (Ok tt, log (EvTimeout ms) w).

(** ** The retrying fetcher, [requestDoc] (lines 31-60) *)

(** The inner [request()]; the counter [retries] it closes over is an
    argument, and [fuel] bounds the recursion. *)
Fixpoint request (fuel : nat) (path : string) (retryOptions : option RetryOptions)
    (retryDelay maxRetries : JS.number) (retries : nat) : M DocumentSnapshot :=
  match fuel with
  | O => hang
  | S fuel' =>
    try_catch (getDoc path) (fun err =>
      if JS.truthy_bool (retryOptions?.retry_enabled) then
        if JS.lt (JS.Fin (Z.of_nat retries)) (JS.sub maxRetries (JS.Fin 1)) then
          match retryOptions?.retryOnErrorCode with
          | None =>
              timeout retryDelay ;;;
              request fuel' path retryOptions retryDelay maxRetries (S retries)
          | Some codes =>
              if JS.includes codes (error_code err) then
                timeout retryDelay ;;;
                request fuel' path retryOptions retryDelay maxRetries (S retries)
              else
                throw ErrNotRetryable
          end
        else throw err
      else throw err)
  end.

Definition requestDoc (fuel : nat) (path : string) (retryOptions : option RetryOptions)
    : M DocumentSnapshot :=
  let retryDelay := JS.or_default (retryOptions?.retryDelay) (JS.Fin 0) in
  let maxRetries := JS.or_default (retryOptions?.maxRetries) (JS.Fin 3) in
  request fuel path retryOptions retryDelay maxRetries 0.

(** ** The cache decision engine, [getDocWrapper] (lines 76-217) *)

(** [Date.now() - cacheEntry?.fetchedAt] *)
Definition elapsed (now : Z) (cacheEntry : option CacheEntry) : JS.number :=
  JS.sub (JS.Fin now) (JS.toNumber (option_map (fun e => JS.Fin (fetchedAt e)) cacheEntry)).

(** The object literal [newDocEntry] with its conditional lock
    (lines 103-114, 132-143 and 192-203). *)
Definition newDocEntry (now : Z) (snap : DocumentSnapshot) (options : option Options)
    : CacheEntry :=
  mkEntry (data snap) now
    (if JS.truthy_bool (options?.cacheOptions?.cacheTime?.locked)
     then options?.cacheOptions?.cacheTime?.time
     else None).

(** Fetch, store and resolve: the block the three caching paths share
    (lines 101-118, 130-147 and 190-207).  [set] is called and left
    floating. *)
Definition fetchAndStore (fuel : nat) (path : string) (options : option Options)
    : M (option LooseObject) :=
  newDoc <- requestDoc fuel path (options?.retryOptions) ;;
  now <- Date_now ;;
  floating (set path (newDocEntry now newDoc options)) ;;;
  ret (data newDoc).

(** The freshness test of lines 157-185: [true] when a branch resolves with
    the cached document, [false] when control falls through to line 188. *)
Definition cacheIsFresh (now : Z) (cacheEntry : CacheEntry) (options : option Options)
    : bool :=
  let persistentCacheTime := persistentCacheTime cacheEntry in
  let age := elapsed now (Some cacheEntry) in
  if JS.truthy_opt persistentCacheTime
     && negb (JS.truthy_bool (options?.cacheOptions?.cacheTime?.bypassLockedTime))
  then
    if JS.truthy_bool (options?.cacheOptions?.cacheTime?.locked)
    then JS.lt age (JS.toNumber (options?.cacheOptions?.cacheTime?.time))
    else JS.lt age (JS.toNumber persistentCacheTime)
  else JS.lt age (JS.toNumber (options?.cacheOptions?.cacheTime?.time)).

(** The chain of lines 80-215, [get(...).then(...).catch(...)]; [ret] is
    [resolve], an error is [reject]. *)
Definition getDocBody (fuel : nat) (path : string) (options : option Options)
    : M (option LooseObject) :=
  cacheEntry <- get path ;;
  let persistentCacheTime := cacheEntry?.persistentCacheTime in
  if negb (JS.truthy_bool (options?.cacheOptions?.enabled)) then
    now <- Date_now ;;
    if JS.lt (elapsed now cacheEntry) (JS.toNumber persistentCacheTime) then
      ret (cacheEntry?.doc)
    else
      doc <- requestDoc fuel path (options?.retryOptions) ;;
      ret (data doc)
  else
    match cacheEntry with
    | None => fetchAndStore fuel path options
    | Some entry =>
        if JS.truthy_bool (options?.cacheOptions?.forceRefresh) then
          del path ;;;
          fetchAndStore fuel path options
        else
          now <- Date_now ;;
          if cacheIsFresh now entry options then
            ret (doc entry)
          else
            del path ;;;
            fetchAndStore fuel path options
    end.

(** How the returned promise settles. *)
Inductive Outcome : Type :=
| Resolved (payload : option LooseObject)
| Rejected (err : Error)
| Pending.

Definition settle (r : Res (option LooseObject)) : Outcome :=
  match r with
  | Ok v => Resolved v
  | Err e => Rejected e
  | Hang => Pending
  end.

(** The promise executor (lines 77-216).  It is an [async] function: an
    error thrown before the chain of line 80 carries its [catch] rejects the
    promise of the executor, which nobody holds, and the promise of
    [getDocWrapper] is never settled. *)
Definition getDocWrapper (fuel : nat) (path : string) (options : option Options)
    (w : World) : Outcome * World :=
  match createStore w with
  | (Ok _, w0) => let (r, w') := getDocBody fuel path options w0 in (settle r, w')
  | (Err e, w0) => (Pending, drop_rejection e w0)
  | (Hang, w0) => (Pending, w0)
  end.

(** * Vocabulary of the properties *)

(** ** Worlds that differ by a fetch

    [shift n evs w] is [w] after [n] more calls of [getDoc] that logged
    [evs]: the only trace the fetcher leaves. *)
Definition shift (n : nat) (evs : list Event) (w : World) : World :=
  mkWorld (store w) (faults w) (throws_on_open w) (clock w) (ticks w) (remote w) (calls w + n)
          (trace w ++ evs) (unhandled w).

(** One failed attempt followed by the wait before the next one. *)
Definition retried (path : string) (retryDelay : JS.number) (w : World) : World :=
  log (EvTimeout retryDelay) (called (log (EvGetDoc path) w)).

(** The events of the fetcher. *)
Definition is_fetch_event (path : string) (ev : Event) : Prop :=
  match ev with
  | EvGetDoc p => p = path
  | EvTimeout _ => True
  | _ => False
  end.

(** The events that leave the store as it is. *)
Definition is_read_event (ev : Event) : Prop :=
  match ev with
  | EvSet _ _ | EvDel _ => False
  | _ => True
  end.

(** [allowed ro err]: the allow-list test of lines 43-47 lets [err] through. *)
Definition allowed (retryOptions : option RetryOptions) (e : FirestoreError) : bool :=
  match retryOptions?.retryOnErrorCode with
  | None => true
  | Some codes => JS.includes codes (code e)
  end.

(** [fmap] on results. *)
Definition res_map {A B : Type} (f : A -> B) (r : Res A) : Res B :=
  match r with
  | Ok a => Ok (f a)
  | Err e => Err e
  | Hang => Hang
  end.

(** The remote fails [n] times in a row with [errs 0 .. errs (n-1)] from the
    next call on, and then answers [snap]. *)
Definition fails_then_succeeds (w : World) (path : string) (n : nat)
    (errs : nat -> FirestoreError) (snap : DocumentSnapshot) : Prop :=
  (forall i, i < n -> remote w (calls w + i) path = inl (errs i)) /\
  remote w (calls w + n) path = inr snap.

(** [retryOptions] with another budget. *)
Definition with_maxRetries (v : option JS.number) (ro : RetryOptions) : RetryOptions :=
  mkRetryOptions (retry_enabled ro) v (retryDelay ro) (retryOnErrorCode ro).

(** ** The shapes of a call *)

(** The calls on the store that may precede the fetch. *)
Definition fetch_prefix (w : World) (path : string) (pre : list Event) : Prop :=
  pre = [EvGet path] \/ (pre = [EvGet path; EvDel path] /\ faults w OpDel = None).

(** [CallShape w path res out new dropped]: a call on [path] from world [w],
    [res] being what the fetch yields there, settles as [out] after the
    events [new], leaving the rejections [dropped] unhandled. *)
Inductive CallShape (w : World) (path : string) (res : Res DocumentSnapshot)
    : Outcome -> list Event -> list Error -> Prop :=
| shape_get_rejected (se : StoreError) :
    faults w OpGet = Some se ->
    throws_on_open w = false ->
    CallShape w path res (Rejected (ErrStore se)) [EvGet path] []
| shape_served (payload : option LooseObject) :
    faults w OpGet = None ->
    CallShape w path res (Resolved payload) [EvGet path] []
| shape_del_rejected (se : StoreError) :
    faults w OpGet = None ->
    faults w OpDel = Some se ->
    CallShape w path res (Rejected (ErrStore se)) [EvGet path; EvDel path] []
| shape_unstored (pre evs : list Event) :
    faults w OpGet = None ->
    fetch_prefix w path pre ->
    Forall (is_fetch_event path) evs ->
    CallShape w path res (settle (res_map data res)) (pre ++ evs) []
| shape_stored (pre evs : list Event) (snap : DocumentSnapshot) (entry : CacheEntry) :
    faults w OpGet = None ->
    fetch_prefix w path pre ->
    Forall (is_fetch_event path) evs ->
    res = Ok snap ->
    CallShape w path res (Resolved (data snap)) (pre ++ evs ++ [EvSet path entry])
      (match faults w OpSet with
       | None => []
       | Some se => [ErrStore se]
       end)
| shape_open_thrown (se : StoreError) :
    faults w OpGet = Some se ->
    throws_on_open w = true ->
    CallShape w path res Pending [] [ErrStore se].

(** ** Worlds and events of a whole call *)

(** The events of [k] retries: each one a wait and a further attempt. *)
Definition retry_events (path : string) (retryDelay : JS.number) (k : nat) : list Event :=
  concat (repeat [EvTimeout retryDelay; EvGetDoc path] k).

(** The world after the floating [set] of [entry]. *)
Definition written (path : string) (entry : CacheEntry) (w : World) : World :=
  snd (floating (set path entry) w).

(** The world after a [del] that succeeded. *)
Definition deleted (path : string) (w : World) : World :=
  with_store (delete path (store w)) (log (EvDel path) w).

(** The events that concern [path] (a wait concerns no path). *)
Definition on_path (path : string) (ev : Event) : Prop :=
  match ev with
  | EvGet p | EvDel p | EvGetDoc p | EvSet p _ => p = path
  | EvTimeout _ => True
  end.

(** The world a call hands to its next step once the [get] has succeeded:
    after the [get], or after the [get] and the reading of the clock. *)
Definition after_get (path : string) (w w2 : World) : Prop :=
  w2 = log (EvGet path) w \/ w2 = tick (log (EvGet path) w).

(** [k] calls in a row with the same arguments. *)
Definition call_again (fuel : nat) (path : string) (options : option Options)
    (k : nat) (w : World) : World :=
  Nat.iter k (fun w' => snd (getDocWrapper fuel path options w')) w.

(** ** Scenarios

    The documents, errors and remotes of the test suite, and worlds to run
    calls in. *)
Module Scenario.

Definition docA : LooseObject := [("testData", "test")].
Definition docB : LooseObject := [("testData", "test2")].

Definition testError : FirestoreError := mkFirestoreError (Some "test-error-code").


Definition no_faults : StoreOp -> option StoreError := fun _ => None.





(** The remote holds [docA] at the first call and [docB] afterwards. *)
Definition remote_changing : nat -> string -> FirestoreError + DocumentSnapshot :=
  fun k _ => if Nat.eqb k 0 then inr (createDoc (Some docA)) else inr (createDoc (Some docB)).

(** The remote always holds [docB]. *)
Definition remote_fresh : nat -> string -> FirestoreError + DocumentSnapshot :=
  fun _ _ => inr (createDoc (Some docB)).

(** The remote fails [n] times with [testError], then holds [docA]
    (["validRequestAfterThreeRetries"] is [remote_after 2]). *)
Definition remote_after (n : nat) : nat -> string -> FirestoreError + DocumentSnapshot :=
  fun k _ => if Nat.ltb k n then inl testError else inr (createDoc (Some docA)).

(** The remote never answers. *)
Definition remote_down : nat -> string -> FirestoreError + DocumentSnapshot :=
  fun _ _ => inl testError.

(** A clock that advances by 10 ms between two readings. *)
Definition clock10 : nat -> Z := fun k => (10 * Z.of_nat k)%Z.

Definition world (s : gmap string CacheEntry) (f : StoreOp -> option StoreError)
    (rem : nat -> string -> FirestoreError + DocumentSnapshot) : World :=
  mkWorld s f false clock10 0 rem 0 [] [].


(** An entry fetched at time 0 under a lock of [ttl]. *)
Definition lockedEntry (ttl : JS.number) : CacheEntry := mkEntry (Some docA) 0 (Some ttl).

Definition plainEntry : CacheEntry := mkEntry (Some docA) 0 None.

Definition cacheOnly (co : CacheOptions) : option Options :=
  Some (mkOptions (Some co) None).

End Scenario.

Import Scenario.

(** * Properties *)

Lemma world_eq (w1 w2 : World) :
  store w1 = store w2 -> faults w1 = faults w2 ->
  throws_on_open w1 = throws_on_open w2 -> clock w1 = clock w2 ->
  ticks w1 = ticks w2 -> remote w1 = remote w2 -> calls w1 = calls w2 ->
  trace w1 = trace w2 -> unhandled w1 = unhandled w2 -> w1 = w2.
Proof.
  destruct w1, w2; simpl; intros; subst; reflexivity.
Qed.

Lemma shift_0_nil (w : World) : shift 0 [] w = w.
Proof.
  apply world_eq; simpl; auto using Nat.add_0_r, app_nil_r.
Qed.

Lemma shift_shift (n m : nat) (evs evs' : list Event) (w : World) :
  shift m evs' (shift n evs w) = shift (n + m) (evs ++ evs') w.
Proof.
  apply world_eq; simpl; auto; [lia | now rewrite <- app_assoc].
Qed.

Lemma attempt_shift (path : string) (w : World) :
  called (log (EvGetDoc path) w) = shift 1 [EvGetDoc path] w.
Proof.
  apply world_eq; simpl; auto. lia.
Qed.

Lemma retried_shift (path : string) (rd : JS.number) (w : World) :
  retried path rd w = shift 1 [EvGetDoc path; EvTimeout rd] w.
Proof.
  apply world_eq; simpl; auto; [lia | now rewrite <- app_assoc].
Qed.

Lemma Forall_fetch_app (path : string) (l1 l2 : list Event) :
  Forall (is_fetch_event path) l1 -> Forall (is_fetch_event path) l2 ->
  Forall (is_fetch_event path) (l1 ++ l2).
Proof.
  intros H1 H2. apply Forall_app. split; assumption.
Qed.

(** ** The fetcher only sees the remote

    Whatever [request] does is decided by the remote and the number of calls
    made so far; on any world that agrees on those it returns the same result
    and leaves the same [shift]. *)
Section Fetcher.

Variable path : string.
Variable retryOptions : option RetryOptions.
Variables retryDelay maxRetries : JS.number.

Local Abbreviation budget_left retries :=
  (JS.lt (JS.Fin (Z.of_nat retries)) (JS.sub maxRetries (JS.Fin 1))).

(** *** One attempt *)

Lemma request_step_ok (fuel retries : nat) (w : World) (snap : DocumentSnapshot) :
  remote w (calls w) path = inr snap ->
  request (S fuel) path retryOptions retryDelay maxRetries retries w
  = (Ok snap, called (log (EvGetDoc path) w)).
Proof.
  intros Hrem. cbn [request]. unfold try_catch, getDoc. now rewrite Hrem.
Qed.

Lemma request_step_disabled (fuel retries : nat) (w : World) (e : FirestoreError) :
  remote w (calls w) path = inl e ->
  JS.truthy_bool (retryOptions?.retry_enabled) = false ->
  request (S fuel) path retryOptions retryDelay maxRetries retries w
  = (Err (ErrRemote e), called (log (EvGetDoc path) w)).
Proof.
  intros Hrem Hen. cbn [request]. unfold try_catch, getDoc.
  now rewrite Hrem, Hen.
Qed.

Lemma request_step_exhausted (fuel retries : nat) (w : World) (e : FirestoreError) :
  remote w (calls w) path = inl e ->
  budget_left retries = false ->
  request (S fuel) path retryOptions retryDelay maxRetries retries w
  = (Err (ErrRemote e), called (log (EvGetDoc path) w)).
Proof.
  intros Hrem Hlt. cbn [request]. unfold try_catch, getDoc.
  rewrite Hrem, Hlt. now destruct (JS.truthy_bool _).
Qed.

Lemma request_step_retry (fuel retries : nat) (w : World) (e : FirestoreError) :
  remote w (calls w) path = inl e ->
  JS.truthy_bool (retryOptions?.retry_enabled) = true ->
  budget_left retries = true ->
  allowed retryOptions e = true ->
  request (S fuel) path retryOptions retryDelay maxRetries retries w
  = request fuel path retryOptions retryDelay maxRetries (S retries)
      (retried path retryDelay w).
Proof.
  intros Hrem Hen Hlt Hal. cbn [request]. unfold try_catch, getDoc.
  rewrite Hrem, Hen, Hlt. unfold allowed in Hal.
  destruct (retryOptions?.retryOnErrorCode) as [codes|].
  - cbn [error_code]. now rewrite Hal.
  - reflexivity.
Qed.

Lemma request_step_refused (fuel retries : nat) (w : World) (e : FirestoreError) :
  remote w (calls w) path = inl e ->
  JS.truthy_bool (retryOptions?.retry_enabled) = true ->
  budget_left retries = true ->
  allowed retryOptions e = false ->
  request (S fuel) path retryOptions retryDelay maxRetries retries w
  = (Err ErrNotRetryable, called (log (EvGetDoc path) w)).
Proof.
  intros Hrem Hen Hlt Hal. cbn [request]. unfold try_catch, getDoc.
  rewrite Hrem, Hen, Hlt. unfold allowed in Hal.
  destruct (retryOptions?.retryOnErrorCode) as [codes|].
  - cbn [error_code]. now rewrite Hal.
  - discriminate.
Qed.

(** *** The whole loop *)

Lemma request_uniform (fuel retries : nat) (w : World) :
  exists (res : Res DocumentSnapshot) (n : nat) (evs : list Event),
    Forall (is_fetch_event path) evs /\
    (0 < fuel -> 1 <= n /\ In (EvGetDoc path) evs) /\
    forall w' : World,
      remote w' = remote w -> calls w' = calls w ->
      request fuel path retryOptions retryDelay maxRetries retries w'
      = (res, shift n evs w').
Proof.
  revert retries w. induction fuel as [|fuel IH]; intros retries w.
  - exists Hang, 0, []. repeat split; [constructor | lia | lia |].
    intros w' _ _. simpl. unfold hang. now rewrite shift_0_nil.
  - assert (Hone : Forall (is_fetch_event path) [EvGetDoc path])
      by (repeat constructor).
    assert (Hstop : forall res : Res DocumentSnapshot,
               (forall w' : World,
                   remote w' = remote w -> calls w' = calls w ->
                   request (S fuel) path retryOptions retryDelay maxRetries retries w'
                   = (res, called (log (EvGetDoc path) w'))) ->
               exists res n evs,
                 Forall (is_fetch_event path) evs /\
                 (0 < S fuel -> 1 <= n /\ In (EvGetDoc path) evs) /\
                 forall w' : World,
                   remote w' = remote w -> calls w' = calls w ->
                   request (S fuel) path retryOptions retryDelay maxRetries retries w'
                   = (res, shift n evs w')).
    { intros res H. exists res, 1, [EvGetDoc path].
      repeat split; [exact Hone | lia | now left |].
      intros w' Hr Hc. rewrite H by assumption. now rewrite attempt_shift. }
    destruct (remote w (calls w) path) as [e|snap] eqn:Hrem.
    + destruct (JS.truthy_bool (retryOptions?.retry_enabled)) eqn:Hen;
        [| apply (Hstop (Err (ErrRemote e))); intros w' Hr Hc;
           apply request_step_disabled; [now rewrite Hr, Hc | exact Hen]].
      destruct (budget_left retries) eqn:Hlt;
        [| apply (Hstop (Err (ErrRemote e))); intros w' Hr Hc;
           apply request_step_exhausted; [now rewrite Hr, Hc | exact Hlt]].
      destruct (allowed retryOptions e) eqn:Hal;
        [| apply (Hstop (Err ErrNotRetryable)); intros w' Hr Hc;
           apply (request_step_refused fuel retries w' e);
         [now rewrite Hr, Hc | assumption ..]].
      destruct (IH (S retries) (retried path retryDelay w))
        as (res & n & evs & Hev & _ & Hrec).
      exists res, (1 + n), ([EvGetDoc path; EvTimeout retryDelay] ++ evs).
      repeat split.
      * apply Forall_fetch_app; [repeat constructor | exact Hev].
      * lia.
      * now left.
      * intros w' Hr Hc.
        rewrite (request_step_retry fuel retries w' e) by
          (try assumption; now rewrite Hr, Hc).
        rewrite Hrec.
        -- now rewrite retried_shift, shift_shift.
        -- simpl. exact Hr.
        -- simpl. now rewrite Hc.
    + apply (Hstop (Ok snap)). intros w' Hr Hc. apply request_step_ok. now rewrite Hr, Hc.
Qed.

(** *** Retries *)

Lemma iter_retried_remote (k : nat) (w : World) :
  remote (Nat.iter k (retried path retryDelay) w) = remote w.
Proof.
  induction k as [|k IH]; simpl; [reflexivity | exact IH].
Qed.

Lemma iter_retried_calls (k : nat) (w : World) :
  calls (Nat.iter k (retried path retryDelay) w) = calls w + k.
Proof.
  induction k as [|k IH]; simpl; [lia | rewrite IH; lia].
Qed.

(** After [k] failed attempts that the budget and the allow-list let
    through, the loop stands at counter [retries + k], [k] calls later. *)
Lemma request_retries (k : nat) :
  forall (fuel retries : nat) (w : World) (errs : nat -> FirestoreError),
    JS.truthy_bool (retryOptions?.retry_enabled) = true ->
    (forall i, i < k ->
       remote w (calls w + i) path = inl (errs i) /\
       allowed retryOptions (errs i) = true /\
       budget_left (retries + i) = true) ->
    request (k + fuel) path retryOptions retryDelay maxRetries retries w
    = request fuel path retryOptions retryDelay maxRetries (retries + k)
        (Nat.iter k (retried path retryDelay) w).
Proof.
  induction k as [|k IH]; intros fuel retries w errs Hen H.
  - simpl. now rewrite Nat.add_0_r.
  - destruct (H 0 ltac:(lia)) as (Hrem & Hal & Hlt).
    rewrite Nat.add_0_r in Hrem, Hlt.
    change (S k + fuel) with (S (k + fuel)).
    rewrite (request_step_retry (k + fuel) retries w (errs 0) Hrem Hen Hlt Hal).
    rewrite (IH fuel (S retries) (retried path retryDelay w) (fun i => errs (S i)) Hen).
    + rewrite Nat.iter_succ_r. f_equal. lia.
    + intros i Hi. destruct (H (S i) ltac:(lia)) as (Hrem' & Hal' & Hlt').
      repeat split.
      * simpl. rewrite <- Hrem'. f_equal. lia.
      * exact Hal'.
      * rewrite <- Hlt'. do 3 f_equal. lia.
Qed.

(** With a budget of [N] the loop never makes more than [N] attempts (one
    when [N] is [0]: the first attempt is not subject to the budget). *)
Lemma request_attempts_bound (N : nat) :
  maxRetries = JS.Fin (Z.of_nat N) ->
  forall (fuel retries : nat) (w : World),
    calls (snd (request fuel path retryOptions retryDelay maxRetries retries w)) + retries
    <= calls w + Nat.max (S retries) N.
Proof.
  intros HN. induction fuel as [|fuel IH]; intros retries w.
  - simpl. lia.
  - destruct (remote w (calls w) path) as [e|snap] eqn:Hrem.
    + destruct (JS.truthy_bool (retryOptions?.retry_enabled)) eqn:Hen;
        [| rewrite (request_step_disabled fuel retries w e Hrem Hen); simpl; lia].
      destruct (budget_left retries) eqn:Hlt;
        [| rewrite (request_step_exhausted fuel retries w e Hrem Hlt); simpl; lia].
      destruct (allowed retryOptions e) eqn:Hal;
        [| rewrite (request_step_refused fuel retries w e Hrem Hen Hlt Hal); simpl; lia].
      rewrite (request_step_retry fuel retries w e Hrem Hen Hlt Hal).
      specialize (IH (S retries) (retried path retryDelay w)).
      rewrite HN in Hlt. simpl in Hlt. apply Z.ltb_lt in Hlt.
      simpl in IH. lia.
    + rewrite (request_step_ok fuel retries w snap Hrem). simpl. lia.
Qed.

(** *** Termination

    A finite budget bounds the recursion: with [fuel] for every attempt the
    budget allows, the loop settles. *)
Lemma request_settles (z : Z) :
  maxRetries = JS.Fin z ->
  forall (fuel retries : nat) (w : World),
    1 <= fuel ->
    (z <= Z.of_nat (fuel + retries))%Z ->
    fst (request fuel path retryOptions retryDelay maxRetries retries w) <> Hang.
Proof.
  intros Hz. induction fuel as [|fuel IH]; intros retries w Hfuel Hle; [lia|].
  destruct (remote w (calls w) path) as [e|snap] eqn:Hrem.
  - destruct (JS.truthy_bool (retryOptions?.retry_enabled)) eqn:Hen;
      [| now rewrite (request_step_disabled fuel retries w e Hrem Hen)].
    destruct (budget_left retries) eqn:Hlt;
      [| now rewrite (request_step_exhausted fuel retries w e Hrem Hlt)].
    destruct (allowed retryOptions e) eqn:Hal;
      [| now rewrite (request_step_refused fuel retries w e Hrem Hen Hlt Hal)].
    rewrite (request_step_retry fuel retries w e Hrem Hen Hlt Hal).
    rewrite Hz in Hlt. simpl in Hlt. apply Z.ltb_lt in Hlt.
    apply IH; lia.
  - now rewrite (request_step_ok fuel retries w snap Hrem).
Qed.

End Fetcher.

Section FetcherTrace.

Variable path : string.
Variable retryOptions : option RetryOptions.
Variables retryDelay maxRetries : JS.number.

(** A loop that settles has made one attempt and then [k] retries, each a
    wait of [retryDelay] followed by an attempt; nothing else has changed. *)
Lemma request_trace (fuel : nat) :
  forall (retries : nat) (w : World),
    fst (request fuel path retryOptions retryDelay maxRetries retries w) <> Hang ->
    exists k : nat,
      snd (request fuel path retryOptions retryDelay maxRetries retries w)
      = shift (S k) (EvGetDoc path :: retry_events path retryDelay k) w.
Proof.
  induction fuel as [|fuel IH]; intros retries w Hset.
  - now contradiction Hset.
  - destruct (remote w (calls w) path) as [e|snap] eqn:Hrem.
    + destruct (JS.truthy_bool (retryOptions?.retry_enabled)) eqn:Hen;
        [| exists 0;
           rewrite (request_step_disabled path retryOptions retryDelay maxRetries
                      fuel retries w e Hrem Hen);
           apply attempt_shift].
      destruct (JS.lt (JS.Fin (Z.of_nat retries)) (JS.sub maxRetries (JS.Fin 1)))
        eqn:Hlt;
        [| exists 0;
           rewrite (request_step_exhausted path retryOptions retryDelay maxRetries
                      fuel retries w e Hrem Hlt);
           apply attempt_shift].
      destruct (allowed retryOptions e) eqn:Hal;
        [| exists 0;
           rewrite (request_step_refused path retryOptions retryDelay maxRetries
                      fuel retries w e Hrem Hen Hlt Hal);
           apply attempt_shift].
      rewrite (request_step_retry path retryOptions retryDelay maxRetries
                 fuel retries w e Hrem Hen Hlt Hal) in *.
      destruct (IH (S retries) (retried path retryDelay w) Hset) as [k Hk].
      exists (S k). rewrite Hk, retried_shift, shift_shift. reflexivity.
    + exists 0.
      rewrite (request_step_ok path retryOptions retryDelay maxRetries
                 fuel retries w snap Hrem).
      apply attempt_shift.
Qed.

(** The bound on the attempts for any finite budget, negative ones
    included. *)
Lemma request_attempts_bound_Z (z : Z) :
  maxRetries = JS.Fin z ->
  forall (fuel retries : nat) (w : World),
    calls (snd (request fuel path retryOptions retryDelay maxRetries retries w)) + retries
    <= calls w + Nat.max (S retries) (Z.to_nat z).
Proof.
  intros Hz. induction fuel as [|fuel IH]; intros retries w.
  - simpl. lia.
  - destruct (remote w (calls w) path) as [e|snap] eqn:Hrem.
    + destruct (JS.truthy_bool (retryOptions?.retry_enabled)) eqn:Hen;
        [| rewrite (request_step_disabled path retryOptions retryDelay maxRetries
                      fuel retries w e Hrem Hen); simpl; lia].
      destruct (JS.lt (JS.Fin (Z.of_nat retries)) (JS.sub maxRetries (JS.Fin 1)))
        eqn:Hlt;
        [| rewrite (request_step_exhausted path retryOptions retryDelay maxRetries
                      fuel retries w e Hrem Hlt); simpl; lia].
      destruct (allowed retryOptions e) eqn:Hal;
        [| rewrite (request_step_refused path retryOptions retryDelay maxRetries
                      fuel retries w e Hrem Hen Hlt Hal); simpl; lia].
      rewrite (request_step_retry path retryOptions retryDelay maxRetries
                 fuel retries w e Hrem Hen Hlt Hal).
      specialize (IH (S retries) (retried path retryDelay w)).
      rewrite Hz in Hlt. simpl in Hlt. apply Z.ltb_lt in Hlt.
      simpl in IH. lia.
    + rewrite (request_step_ok path retryOptions retryDelay maxRetries
                 fuel retries w snap Hrem). simpl. lia.
Qed.

End FetcherTrace.

(** ** [requestDoc] *)

(** [request] reads its options only through [enabled] and
    [retryOnErrorCode]; the budget and the delay reach it as arguments. *)
Lemma request_options_ext (path : string) (ro ro' : option RetryOptions)
    (rd mr : JS.number) (fuel : nat) :
  ro?.retry_enabled = ro'?.retry_enabled ->
  ro?.retryOnErrorCode = ro'?.retryOnErrorCode ->
  forall (retries : nat) (w : World),
    request fuel path ro rd mr retries w = request fuel path ro' rd mr retries w.
Proof.
  intros Hen Hcodes. induction fuel as [|fuel IH]; intros retries w.
  - reflexivity.
  - cbn [request]. rewrite <- Hen, <- Hcodes. unfold try_catch.
    destruct (getDoc path w) as [[snap|e|] w1]; try reflexivity.
    destruct (JS.truthy_bool _); try reflexivity.
    destruct (JS.lt _ _); try reflexivity.
    destruct (ro?.retryOnErrorCode) as [codes|].
    + destruct (JS.includes _ _); try reflexivity.
      unfold bind, timeout. apply IH.
    + unfold bind, timeout. apply IH.
Qed.

Lemma requestDoc_uniform (fuel : nat) (path : string) (ro : option RetryOptions)
    (w : World) :
  exists (res : Res DocumentSnapshot) (n : nat) (evs : list Event),
    Forall (is_fetch_event path) evs /\
    (0 < fuel -> 1 <= n /\ In (EvGetDoc path) evs) /\
    forall w' : World,
      remote w' = remote w -> calls w' = calls w ->
      requestDoc fuel path ro w' = (res, shift n evs w').
Proof.
  unfold requestDoc. apply request_uniform.
Qed.

(** The result of a fetch is the same on any two worlds that agree on the
    remote and on the calls made so far. *)
Lemma requestDoc_result (fuel : nat) (path : string) (ro : option RetryOptions)
    (w w' : World) :
  remote w' = remote w -> calls w' = calls w ->
  fst (requestDoc fuel path ro w') = fst (requestDoc fuel path ro w).
Proof.
  intros Hr Hc.
  destruct (requestDoc_uniform fuel path ro w) as (res & n & evs & _ & _ & H).
  rewrite (H w' Hr Hc), (H w eq_refl eq_refl). reflexivity.
Qed.

Lemma requestDoc_calls_lower (fuel : nat) (path : string) (ro : option RetryOptions)
    (w : World) :
  0 < fuel -> calls w + 1 <= calls (snd (requestDoc fuel path ro w)).
Proof.
  intros Hf.
  destruct (requestDoc_uniform fuel path ro w) as (res & n & evs & _ & Hn & H).
  rewrite (H w eq_refl eq_refl). simpl. destruct (Hn Hf). lia.
Qed.

(** Under a finite budget [z] (the default one is [3]), [fuel >= max 1 z]
    is enough for the fetch to settle. *)
Lemma requestDoc_settles (fuel : nat) (path : string) (ro : option RetryOptions)
    (w : World) (z : Z) :
  JS.or_default (ro?.maxRetries) (JS.Fin 3) = JS.Fin z ->
  1 <= fuel ->
  (z <= Z.of_nat fuel)%Z ->
  fst (requestDoc fuel path ro w) <> Hang.
Proof.
  intros Hz Hfuel Hle. unfold requestDoc.
  apply (request_settles path ro _ _ z Hz fuel 0 w Hfuel). lia.
Qed.

Lemma budget_left_nat (N retries : nat) :
  JS.lt (JS.Fin (Z.of_nat retries)) (JS.sub (JS.Fin (Z.of_nat N)) (JS.Fin 1))
  = Nat.ltb (S retries) N.
Proof.
  simpl. destruct (Nat.ltb_spec (S retries) N) as [H|H].
  - apply Z.ltb_lt. lia.
  - apply Z.ltb_ge. lia.
Qed.

Lemma or_default_positive (N : nat) (d : JS.number) :
  1 <= N -> JS.or_default (Some (JS.Fin (Z.of_nat N))) d = JS.Fin (Z.of_nat N).
Proof.
  intros HN. simpl. destruct (Z.eqb_spec (Z.of_nat N) 0) as [H|H]; [lia | reflexivity].
Qed.


(** ** The retry budget *)

(** C3 (as amended).  With retrying enabled and [maxRetries = N >= 1]:
    the fetcher makes at most [N] attempts; if the remote fails on the first
    [N-1] attempts, each with an error the allow-list (if any) lets through,
    and answers on the [N]-th, the fetch succeeds with that snapshot after
    exactly [N] attempts; and when [N >= 2], the same remote under
    [maxRetries = N-1] makes the fetch reject with the error of the last
    attempt made, the [(N-1)]-th, itself and not the wrapper. *)
Theorem retry_budget (N fuel : nat) (path : string) (ro : RetryOptions) (w : World)
    (errs : nat -> FirestoreError) (snap : DocumentSnapshot) :
  1 <= N ->
  JS.truthy_bool (retry_enabled ro) = true ->
  maxRetries ro = Some (JS.Fin (Z.of_nat N)) ->
  calls (snd (requestDoc fuel path (Some ro) w)) <= calls w + N
  /\ (fails_then_succeeds w path (N - 1) errs snap ->
      (forall i, i < N - 1 -> allowed (Some ro) (errs i) = true) ->
      N <= fuel ->
      fst (requestDoc fuel path (Some ro) w) = Ok snap
      /\ calls (snd (requestDoc fuel path (Some ro) w)) = calls w + N)
  /\ (2 <= N ->
      fails_then_succeeds w path (N - 1) errs snap ->
      (forall i, i < N - 2 -> allowed (Some ro) (errs i) = true) ->
      N - 1 <= fuel ->
      fst (requestDoc fuel path
             (Some (with_maxRetries (Some (JS.Fin (Z.of_nat (N - 1)))) ro)) w)
      = Err (ErrRemote (errs (N - 2)))).
Proof.
  intros HN Hen Hmax. split; [|split].
  - unfold requestDoc. cbn [chain]. rewrite Hmax, (or_default_positive N _ HN).
    pose proof (request_attempts_bound path (Some ro)
                  (JS.or_default (retryDelay ro) (JS.Fin 0)) (JS.Fin (Z.of_nat N))
                  N eq_refl fuel 0 w) as H.
    lia.
  - intros [Hfail Hok] Hal Hfuel.
    unfold requestDoc. cbn [chain]. rewrite Hmax, (or_default_positive N _ HN).
    replace fuel with ((N - 1) + S (fuel - N)) by lia.
    rewrite (request_retries path (Some ro) _ _ (N - 1) _ 0 w errs Hen).
    + rewrite (request_step_ok _ _ _ _ _ _ _ snap).
      * simpl. rewrite iter_retried_calls. split; [reflexivity | lia].
      * rewrite iter_retried_remote, iter_retried_calls. exact Hok.
    + intros i Hi. repeat split; [now apply Hfail | now apply Hal |].
      rewrite budget_left_nat. apply Nat.ltb_lt. lia.
  - intros HN2 [Hfail _] Hal Hfuel.
    unfold requestDoc, with_maxRetries. cbn [chain maxRetries retryDelay].
    rewrite (or_default_positive (N - 1) _ ltac:(lia)).
    replace fuel with ((N - 2) + S (fuel - (N - 1))) by lia.
    set (ro' := Some (mkRetryOptions _ _ _ _)).
    rewrite (request_retries path ro' _ _ (N - 2) _ 0 w errs Hen).
    + rewrite (request_step_exhausted _ _ _ _ _ _ _ (errs (N - 2))).
      * reflexivity.
      * rewrite iter_retried_remote, iter_retried_calls. apply Hfail. lia.
      * rewrite budget_left_nat. apply Nat.ltb_ge. lia.
    + intros i Hi. repeat split; [apply Hfail; lia | exact (Hal i Hi) |].
      rewrite budget_left_nat. apply Nat.ltb_lt. lia.
Qed.

(** C4.  With retrying enabled and an allow-list [codes] configured, let
    the counter have reached [k] through [k] failed attempts that were
    retried, and let attempt [k] fail with [e].  If budget remains and the
    code of [e] is not on the list, the fetch rejects with the wrapper error
    and attempt [k] was the last one; if budget remains and the code is on
    the list, the loop waits and goes on at counter [k+1], making a further
    attempt; if no budget remains ([k] has reached [maxRetries - 1]), the
    fetch rejects with [e] itself. *)
Theorem allow_list_policy (fuel k : nat) (path : string) (ro : RetryOptions)
    (codes : list string) (w : World) (errs : nat -> FirestoreError)
    (e : FirestoreError) :
  JS.truthy_bool (retry_enabled ro) = true ->
  retryOnErrorCode ro = Some codes ->
  (forall i, i < k ->
     remote w (calls w + i) path = inl (errs i) /\
     JS.includes codes (code (errs i)) = true /\
     JS.lt (JS.Fin (Z.of_nat i))
       (JS.sub (JS.or_default (maxRetries ro) (JS.Fin 3)) (JS.Fin 1)) = true) ->
  remote w (calls w + k) path = inl e ->
  k < fuel ->
  let mr := JS.or_default (maxRetries ro) (JS.Fin 3) in
  let rd := JS.or_default (retryDelay ro) (JS.Fin 0) in
  let budget := JS.lt (JS.Fin (Z.of_nat k)) (JS.sub mr (JS.Fin 1)) in
  (budget = true -> JS.includes codes (code e) = false ->
     fst (requestDoc fuel path (Some ro) w) = Err ErrNotRetryable
     /\ calls (snd (requestDoc fuel path (Some ro) w)) = calls w + k + 1)
  /\ (budget = true -> JS.includes codes (code e) = true ->
      requestDoc fuel path (Some ro) w
      = request (fuel - S k) path (Some ro) rd mr (S k)
          (Nat.iter (S k) (retried path rd) w)
      /\ (S k < fuel ->
          calls w + k + 2 <= calls (snd (requestDoc fuel path (Some ro) w))))
  /\ (budget = false ->
      fst (requestDoc fuel path (Some ro) w) = Err (ErrRemote e)
      /\ calls (snd (requestDoc fuel path (Some ro) w)) = calls w + k + 1).
Proof.
  intros Hen Hcodes Hpre He Hfuel mr rd budget.
  assert (Hreach : forall f : nat,
             request (k + f) path (Some ro) rd mr 0 w
             = request f path (Some ro) rd mr k (Nat.iter k (retried path rd) w)).
  { intros f. apply (request_retries path (Some ro) rd mr k f 0 w errs Hen).
    intros i Hi. destruct (Hpre i Hi) as (H1 & H2 & H3).
    repeat split; [exact H1 | | exact H3].
    unfold allowed. cbn [chain]. now rewrite Hcodes. }
  assert (Hrem : remote (Nat.iter k (retried path rd) w)
                   (calls (Nat.iter k (retried path rd) w)) path = inl e).
  { now rewrite iter_retried_remote, iter_retried_calls. }
  assert (Hal : allowed (Some ro) e = JS.includes codes (code e)).
  { unfold allowed. cbn [chain]. now rewrite Hcodes. }
  assert (Hf : exists f : nat, fuel = k + S f) by (exists (fuel - S k); lia).
  destruct Hf as [f ->]. clear Hfuel.
  replace (k + S f - S k) with f by lia.
  unfold requestDoc. cbn [chain]. fold mr rd.
  rewrite Hreach.
  split; [|split].
  - intros Hb Hin. rewrite <- Hal in Hin.
    rewrite (request_step_refused path (Some ro) rd mr _ k _ e Hrem Hen Hb Hin).
    simpl. rewrite iter_retried_calls. split; [reflexivity | lia].
  - intros Hb Hin. rewrite <- Hal in Hin.
    rewrite (request_step_retry path (Some ro) rd mr _ k _ e Hrem Hen Hb Hin).
    split; [reflexivity |].
    intros Hf.
    destruct (request_uniform path (Some ro) rd mr f (S k)
                (retried path rd (Nat.iter k (retried path rd) w)))
      as (res & n & evs & _ & Hn & H).
    rewrite (H _ eq_refl eq_refl). simpl. rewrite iter_retried_calls.
    destruct (Hn ltac:(lia)). lia.
  - intros Hb.
    rewrite (request_step_exhausted path (Some ro) rd mr _ k _ e Hrem Hb).
    simpl. rewrite iter_retried_calls. split; [reflexivity | lia].
Qed.

(** C10.  A falsy [maxRetries] ([undefined], [0] or [NaN]) makes the
    fetcher behave exactly as [maxRetries = 3]: it runs as the fetcher with
    [maxRetries = 3] does, makes at most three attempts and never fewer than
    one, and with retrying enabled it does use all three: if the remote
    fails twice and then answers, the fetch succeeds at the third attempt,
    and if the remote fails three times the fetch rejects with the third
    error after the third attempt.  A falsy [retryDelay] behaves exactly as a
    delay of [0]: it runs as the fetcher with [retryDelay = 0] does, and
    every wait it makes is a wait of [0]. *)
Theorem falsy_budget_and_delay_default (fuel : nat) (path : string)
    (en : option bool) (v mr rd : option JS.number) (codes : option (list string))
    (w : World) (errs : nat -> FirestoreError) (snap : DocumentSnapshot) :
  JS.truthy_opt v = false ->
  let budget := mkRetryOptions en v rd codes in
  let delay := mkRetryOptions en mr v codes in
  requestDoc fuel path (Some budget) w
  = requestDoc fuel path (Some (mkRetryOptions en (Some (JS.Fin 3)) rd codes)) w
  /\ calls (snd (requestDoc fuel path (Some budget) w)) <= calls w + 3
  /\ (0 < fuel -> calls w + 1 <= calls (snd (requestDoc fuel path (Some budget) w)))
  /\ (JS.truthy_bool en = true ->
      3 <= fuel ->
      (forall i, i < 2 -> allowed (Some budget) (errs i) = true) ->
      (fails_then_succeeds w path 2 errs snap ->
         fst (requestDoc fuel path (Some budget) w) = Ok snap
         /\ calls (snd (requestDoc fuel path (Some budget) w)) = calls w + 3)
      /\ ((forall i, i < 3 -> remote w (calls w + i) path = inl (errs i)) ->
          fst (requestDoc fuel path (Some budget) w) = Err (ErrRemote (errs 2))
          /\ calls (snd (requestDoc fuel path (Some budget) w)) = calls w + 3))
  /\ requestDoc fuel path (Some delay) w
     = requestDoc fuel path (Some (mkRetryOptions en mr (Some (JS.Fin 0)) codes)) w
  /\ (fst (requestDoc fuel path (Some delay) w) <> Hang ->
      exists k : nat,
        snd (requestDoc fuel path (Some delay) w)
        = shift (S k) (EvGetDoc path :: retry_events path (JS.Fin 0) k) w).
Proof.
  intros Hv budget delay.
  assert (H3 : JS.or_default v (JS.Fin 3) = JS.Fin 3).
  { destruct v as [n|]; [|reflexivity]. simpl in *. now rewrite Hv. }
  assert (H0 : JS.or_default v (JS.Fin 0) = JS.Fin 0).
  { destruct v as [n|]; [|reflexivity]. simpl in *. now rewrite Hv. }
  split; [|split; [|split; [|split; [|split]]]].
  - unfold requestDoc. cbn [chain maxRetries retryDelay budget]. rewrite H3.
    apply request_options_ext; reflexivity.
  - unfold requestDoc. cbn [chain maxRetries retryDelay budget]. rewrite H3.
    pose proof (request_attempts_bound path (Some budget)
                  (JS.or_default rd (JS.Fin 0)) (JS.Fin 3) 3 eq_refl fuel 0 w) as H.
    simpl in H. lia.
  - apply requestDoc_calls_lower.
  - intros Hen Hfuel Hal.
    unfold requestDoc. cbn [chain maxRetries retryDelay budget]. rewrite H3.
    change (JS.Fin 3) with (JS.Fin (Z.of_nat 3)).
    assert (Hreach : forall (f : nat),
               (forall i, i < 2 -> remote w (calls w + i) path = inl (errs i)) ->
               request (2 + f) path (Some budget) (JS.or_default rd (JS.Fin 0))
                 (JS.Fin (Z.of_nat 3)) 0 w
               = request f path (Some budget) (JS.or_default rd (JS.Fin 0))
                   (JS.Fin (Z.of_nat 3)) 2
                   (Nat.iter 2 (retried path (JS.or_default rd (JS.Fin 0))) w)).
    { intros f Hfail.
      apply (request_retries path (Some budget) _ _ 2 f 0 w errs Hen).
      intros i Hi. repeat split; [now apply Hfail | now apply Hal |].
      rewrite budget_left_nat. apply Nat.ltb_lt. lia. }
    replace fuel with (2 + S (fuel - 3)) by lia. split.
    + intros [Hfail Hok]. rewrite (Hreach _ Hfail).
      rewrite (request_step_ok _ _ _ _ _ _ _ snap).
      * cbn [fst snd calls called log]. rewrite iter_retried_calls.
        split; [reflexivity | lia].
      * rewrite iter_retried_remote, iter_retried_calls. exact Hok.
    + intros Hfail. rewrite (Hreach _ (fun i Hi => Hfail i ltac:(lia))).
      rewrite (request_step_exhausted _ _ _ _ _ _ _ (errs 2)).
      * cbn [fst snd calls called log]. rewrite iter_retried_calls.
        split; [reflexivity | lia].
      * rewrite iter_retried_remote, iter_retried_calls. apply Hfail. lia.
      * rewrite budget_left_nat. reflexivity.
  - unfold requestDoc. cbn [chain maxRetries retryDelay delay]. rewrite H0.
    apply request_options_ext; reflexivity.
  - unfold requestDoc. cbn [chain maxRetries retryDelay delay]. rewrite H0.
    apply request_trace.
Qed.

(** ** The cache decision engine *)

Lemma elapsed_entry (now : Z) (e : CacheEntry) :
  elapsed now (Some e) = JS.Fin (now - fetchedAt e).
Proof. reflexivity. Qed.

Lemma Forall_read_fetch (path : string) (evs : list Event) :
  Forall (is_fetch_event path) evs -> Forall is_read_event evs.
Proof.
  induction 1 as [|ev l Hev _ IH]; constructor; [|exact IH].
  destruct ev; simpl in *; auto.
Qed.

(** Opens a call: names the result [res] of the fetch, the [n] calls and
    the events [evs] it costs, and unfolds the body down to the store and
    clock operations. *)
Ltac open_call fuel path options w res n evs Hevs Hn Hreq :=
  destruct (requestDoc_uniform fuel path (options?.retryOptions) w)
    as (res & n & evs & Hevs & Hn & Hreq);
  unfold getDocWrapper, createStore, getDocBody, fetchAndStore, bind, get, del,
    Date_now, floating, set, ret.

(** C5.  A call with [cacheOptions.enabled] falsy leaves the store as it
    found it and issues neither [set] nor [del]; when the entry carries a
    locked time to live [t] and [now - fetchedAt < t] it resolves with the
    cached document without calling the remote, and otherwise it settles as
    the fetch does, resolving with the fetched payload. *)
Theorem disabled_call_reads_only (fuel : nat) (path : string)
    (options : option Options) (w : World) :
  JS.truthy_bool (options?.cacheOptions?.enabled) = false ->
  let now := clock w (ticks w) in
  let r := getDocWrapper fuel path options w in
  (store (snd r) = store w
   /\ exists evs, trace (snd r) = trace w ++ evs /\ Forall is_read_event evs)
  /\ (faults w OpGet = None ->
      (forall (e : CacheEntry) (t : JS.number),
          store w !! path = Some e ->
          persistentCacheTime e = Some t ->
          JS.lt (JS.Fin (now - fetchedAt e)) t = true ->
          fst r = Resolved (doc e) /\ calls (snd r) = calls w)
      /\ ((forall (e : CacheEntry) (t : JS.number),
              store w !! path = Some e ->
              persistentCacheTime e = Some t ->
              JS.lt (JS.Fin (now - fetchedAt e)) t = false) ->
          fst r = settle (res_map data
                            (fst (requestDoc fuel path (options?.retryOptions) w))))).
Proof.
  intros Hen now r. subst r.
  open_call fuel path options w res n evs Hevs Hn Hreq.
  rewrite Hen. cbn [negb].
  destruct (faults w OpGet) as [se|] eqn:Hget.
  - split; [|discriminate].
    destruct (throws_on_open w); cbn beta iota zeta; rewrite ?Hget; simpl.
    + split; [reflexivity|]. exists []. split; [now rewrite app_nil_r | constructor].
    + split; [reflexivity|].
      exists [EvGet path]. split; [reflexivity | repeat constructor].
  - cbn beta iota zeta. rewrite ?Hget. cbn [clock ticks log]. fold now.
    destruct (JS.lt (elapsed now (store w !! path))
                (JS.toNumber ((store w !! path)?.persistentCacheTime))) eqn:Hfresh.
    + split; [|intros _; split].
      * simpl. split; [reflexivity|].
        exists [EvGet path]. split; [reflexivity | repeat constructor].
      * intros e t He Ht Hlt. rewrite He. simpl. split; reflexivity.
      * intros Hstale. exfalso.
        destruct (store w !! path) as [e|] eqn:He; [|discriminate].
        cbn [chain] in Hfresh. rewrite elapsed_entry in Hfresh.
        destruct (persistentCacheTime e) as [t|] eqn:Ht.
        -- cbn [JS.toNumber] in Hfresh.
           rewrite (Hstale e t eq_refl Ht) in Hfresh. discriminate.
        -- simpl in Hfresh. discriminate.
    + rewrite (Hreq w eq_refl eq_refl),
        (Hreq (tick (log (EvGet path) w)) eq_refl eq_refl).
      split; [|intros _; split].
      * destruct res; simpl; (split; [reflexivity|]);
          exists (EvGet path :: evs);
          (split; [now rewrite <- app_assoc
                  | constructor; [exact I | now apply Forall_read_fetch with path]]).
      * intros e t He Ht Hlt. exfalso.
        rewrite He in Hfresh. cbn [chain] in Hfresh.
        rewrite elapsed_entry, Ht in Hfresh. cbn [JS.toNumber] in Hfresh.
        congruence.
      * intros _. destruct res; reflexivity.
Qed.

(** Replaces the fetch in the goal by its result. *)
Ltac run_fetch Hreq :=
  match goal with
  | |- context [requestDoc _ _ _ ?w'] => rewrite (Hreq w' eq_refl eq_refl)
  end.

(** Normalises a trace equation: reassociates the appends and lets
    [reflexivity] fill in what is left open. *)
Ltac trace_eq := simpl; rewrite <- ?app_assoc, ?app_nil_r; simpl; reflexivity.

(** A call with the cache enabled, an entry in the store and no forced
    refresh turns on [cacheIsFresh] alone: fresh, it resolves with the
    cached document and only the [get] has happened; stale, it issues the
    [del] of the refetch fallback right after the [get]. *)
Lemma enabled_entry_decision (fuel : nat) (path : string)
    (options : option Options) (w : World) (e : CacheEntry) :
  faults w OpGet = None ->
  store w !! path = Some e ->
  JS.truthy_bool (options?.cacheOptions?.enabled) = true ->
  JS.truthy_bool (options?.cacheOptions?.forceRefresh) = false ->
  let now := clock w (ticks w) in
  let r := getDocWrapper fuel path options w in
  (cacheIsFresh now e options = true ->
     fst r = Resolved (doc e) /\ snd r = tick (log (EvGet path) w))
  /\ (cacheIsFresh now e options = false ->
      exists evs, trace (snd r) = trace w ++ EvGet path :: EvDel path :: evs).
Proof.
  intros Hget He Hen Hforce now r. subst r.
  open_call fuel path options w res n evs Hevs Hn Hreq.
  rewrite Hget. cbn beta iota zeta.
  rewrite Hget, He, Hen, Hforce. cbn [negb clock ticks log]. fold now.
  split; intros Hfresh; rewrite Hfresh.
  - split; reflexivity.
  - cbn [faults log tick].
    destruct (faults w OpDel) as [se|].
    + exists []. trace_eq.
    + run_fetch Hreq.
      destruct res as [snap| |]; cbn [faults shift tick log with_store];
        try destruct (faults w OpSet); eexists; trace_eq.
Qed.

Lemma cacheIsFresh_relock (now : Z) (e : CacheEntry) (options : option Options) :
  JS.truthy_bool (options?.cacheOptions?.cacheTime?.bypassLockedTime) = false ->
  JS.truthy_bool (options?.cacheOptions?.cacheTime?.locked) = true ->
  cacheIsFresh now e options
  = JS.lt (JS.Fin (now - fetchedAt e))
      (JS.toNumber (options?.cacheOptions?.cacheTime?.time)).
Proof.
  intros Hby Hlock. unfold cacheIsFresh. rewrite Hby, Hlock, elapsed_entry.
  now destruct (JS.truthy_opt _).
Qed.

(** C7.  Cache enabled, no forced refresh, an entry in the store (whatever
    locked time to live it carries), [bypassLockedTime] unset and
    [cacheTime.locked] set on this call: the age of the entry is compared
    with this call's [cacheTime.time].  When it is smaller the call resolves
    with the cached document and the world is as after the [get] alone:
    the store is unchanged, nothing was written or deleted, the remote was
    not called.  When it is not, the call goes to the refetch fallback. *)
Theorem relock_checks_new_time (fuel : nat) (path : string)
    (options : option Options) (w : World) (e : CacheEntry) :
  faults w OpGet = None ->
  store w !! path = Some e ->
  JS.truthy_bool (options?.cacheOptions?.enabled) = true ->
  JS.truthy_bool (options?.cacheOptions?.forceRefresh) = false ->
  JS.truthy_bool (options?.cacheOptions?.cacheTime?.bypassLockedTime) = false ->
  JS.truthy_bool (options?.cacheOptions?.cacheTime?.locked) = true ->
  let now := clock w (ticks w) in
  let new := JS.toNumber (options?.cacheOptions?.cacheTime?.time) in
  let r := getDocWrapper fuel path options w in
  (JS.lt (JS.Fin (now - fetchedAt e)) new = true ->
     fst r = Resolved (doc e)
     /\ store (snd r) = store w
     /\ trace (snd r) = trace w ++ [EvGet path]
     /\ calls (snd r) = calls w
     /\ unhandled (snd r) = unhandled w)
  /\ (JS.lt (JS.Fin (now - fetchedAt e)) new = false ->
      exists evs, trace (snd r) = trace w ++ EvGet path :: EvDel path :: evs).
Proof.
  intros Hget He Hen Hforce Hby Hlock now new r.
  destruct (enabled_entry_decision fuel path options w e Hget He Hen Hforce)
    as [Hfresh Hstale].
  fold now in Hfresh, Hstale. rewrite (cacheIsFresh_relock now e options Hby Hlock)
    in Hfresh, Hstale.
  fold new in Hfresh, Hstale. fold r in Hfresh, Hstale.
  split.
  - intros H. destruct (Hfresh H) as [Hout Hw]. rewrite Hout, Hw.
    repeat split; reflexivity.
  - exact Hstale.
Qed.

(** ** The refetch paths *)

(** What [fetchAndStore] leaves behind, given the result [res] of the
    fetch: on success the [set] of the new entry, whose own failure is an
    unhandled rejection and nothing more. *)
Lemma fetchAndStore_outcome (fuel : nat) (path : string) (options : option Options)
    (w w2 : World) :
  remote w2 = remote w -> calls w2 = calls w -> faults w2 = faults w ->
  let r := fetchAndStore fuel path options w2 in
  let res := fst (requestDoc fuel path (options?.retryOptions) w) in
  fst r = res_map data res
  /\ exists evs,
      Forall (is_fetch_event path) evs
      /\ (0 < fuel -> In (EvGetDoc path) evs)
      /\ match res with
         | Ok snap =>
             let entry := newDocEntry (clock w2 (ticks w2)) snap options in
             trace (snd r) = trace w2 ++ evs ++ [EvSet path entry]
             /\ store (snd r)
                = match faults w OpSet with
                  | None => <[path := entry]> (store w2)
                  | Some _ => store w2
                  end
             /\ unhandled (snd r)
                = unhandled w2 ++ match faults w OpSet with
                                  | None => []
                                  | Some se => [ErrStore se]
                                  end
         | _ =>
             trace (snd r) = trace w2 ++ evs
             /\ store (snd r) = store w2
             /\ unhandled (snd r) = unhandled w2
         end.
Proof.
  intros Hr Hc Hf r res. subst r res.
  destruct (requestDoc_uniform fuel path (options?.retryOptions) w)
    as (res & n & evs & Hevs & Hn & Hreq).
  unfold fetchAndStore, bind, Date_now, floating, set, ret.
  rewrite (Hreq w eq_refl eq_refl), (Hreq w2 Hr Hc). cbn [fst].
  destruct res as [snap| |].
  - cbn [faults tick shift log]. rewrite Hf.
    split; [now destruct (faults w OpSet)|].
    exists evs. split; [exact Hevs|]. split; [intros H; now apply Hn|].
    destruct (faults w OpSet); simpl; rewrite <- ?app_assoc, ?app_nil_r;
      repeat split; reflexivity.
  - split; [reflexivity|]. exists evs. split; [exact Hevs|].
    split; [intros H; now apply Hn|]. simpl. repeat split; reflexivity.
  - split; [reflexivity|]. exists evs. split; [exact Hevs|].
    split; [intros H; now apply Hn|]. simpl. repeat split; reflexivity.
Qed.

(** The same after the [del] that opens both refetch paths. *)
Lemma refetch_outcome (fuel : nat) (path : string) (options : option Options)
    (w w2 : World) :
  remote w2 = remote w -> calls w2 = calls w -> faults w2 = faults w ->
  faults w OpDel = None ->
  let r := bind (del path) (fun _ => fetchAndStore fuel path options) w2 in
  let res := fst (requestDoc fuel path (options?.retryOptions) w) in
  fst r = res_map data res
  /\ exists evs,
      Forall (is_fetch_event path) evs
      /\ (0 < fuel -> In (EvGetDoc path) evs)
      /\ match res with
         | Ok snap =>
             let entry := newDocEntry (clock w2 (ticks w2)) snap options in
             trace (snd r) = trace w2 ++ EvDel path :: evs ++ [EvSet path entry]
             /\ store (snd r)
                = match faults w OpSet with
                  | None => <[path := entry]> (store w2)
                  | Some _ => delete path (store w2)
                  end
             /\ unhandled (snd r)
                = unhandled w2 ++ match faults w OpSet with
                                  | None => []
                                  | Some se => [ErrStore se]
                                  end
         | _ =>
             trace (snd r) = trace w2 ++ EvDel path :: evs
             /\ store (snd r) = delete path (store w2)
             /\ unhandled (snd r) = unhandled w2
         end.
Proof.
  intros Hr Hc Hf Hdel r res.
  pose (w3 := with_store (delete path (store w2)) (log (EvDel path) w2)).
  assert (Hrun : r = fetchAndStore fuel path options w3).
  { subst r. unfold bind, del. rewrite Hf, Hdel. reflexivity. }
  destruct (fetchAndStore_outcome fuel path options w w3 Hr Hc Hf)
    as (Hres & evs & Hevs & Hn & Hshape).
  rewrite Hrun. split; [exact Hres|].
  exists evs. split; [exact Hevs|]. split; [exact Hn|].
  fold res in Hshape. destruct res as [snap| |].
  - destruct Hshape as (Ht & Hs & Hu). repeat split.
    + rewrite Ht. trace_eq.
    + rewrite Hs. destruct (faults w OpSet); [reflexivity|].
      simpl. apply insert_delete_eq.
    + exact Hu.
  - destruct Hshape as (Ht & Hs & Hu). repeat split;
      [rewrite Ht; trace_eq | exact Hs | exact Hu].
  - destruct Hshape as (Ht & Hs & Hu). repeat split;
      [rewrite Ht; trace_eq | exact Hs | exact Hu].
Qed.

(** Which path the body takes. *)
Lemma getDocBody_force (fuel : nat) (path : string) (options : option Options)
    (w : World) (e : CacheEntry) :
  faults w OpGet = None ->
  store w !! path = Some e ->
  JS.truthy_bool (options?.cacheOptions?.enabled) = true ->
  JS.truthy_bool (options?.cacheOptions?.forceRefresh) = true ->
  getDocBody fuel path options w
  = bind (del path) (fun _ => fetchAndStore fuel path options) (log (EvGet path) w).
Proof.
  intros Hget He Hen Hforce. unfold getDocBody at 1. unfold bind at 1. unfold get.
  now rewrite Hget, He, Hen, Hforce.
Qed.

Lemma getDocBody_stale (fuel : nat) (path : string) (options : option Options)
    (w : World) (e : CacheEntry) :
  faults w OpGet = None ->
  store w !! path = Some e ->
  JS.truthy_bool (options?.cacheOptions?.enabled) = true ->
  JS.truthy_bool (options?.cacheOptions?.forceRefresh) = false ->
  cacheIsFresh (clock w (ticks w)) e options = false ->
  getDocBody fuel path options w
  = bind (del path) (fun _ => fetchAndStore fuel path options)
      (tick (log (EvGet path) w)).
Proof.
  intros Hget He Hen Hforce Hstale. unfold getDocBody at 1. unfold bind at 1.
  unfold get. rewrite Hget, He, Hen, Hforce. cbn [negb].
  unfold bind at 1. unfold Date_now. cbn [clock ticks log]. now rewrite Hstale.
Qed.

Lemma getDocBody_empty (fuel : nat) (path : string) (options : option Options)
    (w : World) :
  faults w OpGet = None ->
  store w !! path = None ->
  JS.truthy_bool (options?.cacheOptions?.enabled) = true ->
  getDocBody fuel path options w
  = fetchAndStore fuel path options (log (EvGet path) w).
Proof.
  intros Hget He Hen. unfold getDocBody at 1. unfold bind at 1. unfold get.
  now rewrite Hget, He, Hen.
Qed.

Lemma createStore_ok (w : World) :
  faults w OpGet = None \/ throws_on_open w = false ->
  createStore w = (Ok tt, w).
Proof.
  unfold createStore. intros [-> | ->]; [reflexivity|].
  now destruct (faults w OpGet).
Qed.

Lemma getDocWrapper_body (fuel : nat) (path : string) (options : option Options)
    (w : World) :
  faults w OpGet = None \/ throws_on_open w = false ->
  getDocWrapper fuel path options w
  = (settle (fst (getDocBody fuel path options w)),
     snd (getDocBody fuel path options w)).
Proof.
  intros Hopen. unfold getDocWrapper. rewrite (createStore_ok w Hopen).
  now destruct (getDocBody fuel path options w).
Qed.

(** What the executor throws while the store is opened is lost. *)
Lemma getDocWrapper_thrown (fuel : nat) (path : string) (options : option Options)
    (w : World) (se : StoreError) :
  faults w OpGet = Some se ->
  throws_on_open w = true ->
  getDocWrapper fuel path options w
  = (Pending, drop_rejection (ErrStore se) w).
Proof.
  intros Hget Hthrow. unfold getDocWrapper, createStore. now rewrite Hget, Hthrow.
Qed.

(** C8.  On the stale-refetch fallback (cache enabled, an entry in the
    store, no forced refresh, the entry judged stale) the [del] of the old
    entry is issued right after the [get]; and when it and the fetch
    succeed, the call resolves with the fetched payload and issues, after
    the fetch, the [set] of a new entry whose [fetchedAt] is the clock read
    at that point and whose [persistentCacheTime] is this call's
    [cacheTime.time] if [cacheTime.locked] is truthy and absent otherwise,
    whatever lock the old entry carried; a [set] that succeeds leaves that
    entry in the store. *)
Theorem stale_refetch_rewrites_entry (fuel : nat) (path : string)
    (options : option Options) (w : World) (e : CacheEntry) :
  faults w OpGet = None ->
  store w !! path = Some e ->
  JS.truthy_bool (options?.cacheOptions?.enabled) = true ->
  JS.truthy_bool (options?.cacheOptions?.forceRefresh) = false ->
  cacheIsFresh (clock w (ticks w)) e options = false ->
  let r := getDocWrapper fuel path options w in
  (exists evs, trace (snd r) = trace w ++ EvGet path :: EvDel path :: evs)
  /\ (faults w OpDel = None ->
      forall snap : DocumentSnapshot,
        fst (requestDoc fuel path (options?.retryOptions) w) = Ok snap ->
        let entry :=
          mkEntry (data snap) (clock w (S (ticks w)))
            (if JS.truthy_bool (options?.cacheOptions?.cacheTime?.locked)
             then options?.cacheOptions?.cacheTime?.time
             else None) in
        fst r = Resolved (data snap)
        /\ (exists evs,
              Forall (is_fetch_event path) evs
              /\ trace (snd r)
                 = trace w ++ [EvGet path; EvDel path] ++ evs ++ [EvSet path entry])
        /\ (faults w OpSet = None ->
            store (snd r) = <[path := entry]> (store w)
            /\ store (snd r) !! path = Some entry)
        /\ (JS.truthy_bool (options?.cacheOptions?.cacheTime?.locked) = false ->
            persistentCacheTime entry = None)).
Proof.
  intros Hget He Hen Hforce Hstale r. split.
  - apply (enabled_entry_decision fuel path options w e Hget He Hen Hforce).
    exact Hstale.
  - intros Hdel snap Hok entry. subst r.
    rewrite (getDocWrapper_body fuel path options w (or_introl Hget)),
      (getDocBody_stale fuel path options w e Hget He Hen Hforce Hstale).
    destruct (refetch_outcome fuel path options w (tick (log (EvGet path) w))
                eq_refl eq_refl eq_refl Hdel)
      as (Hres & evs & Hevs & _ & Hshape).
    rewrite Hok in Hres, Hshape. destruct Hshape as (Ht & Hs & _).
    cbn [fst snd]. split; [|split; [|split]].
    + now rewrite Hres.
    + exists evs. split; [exact Hevs|]. rewrite Ht. trace_eq.
    + intros Hset. rewrite Hs, Hset. split; [reflexivity | apply lookup_insert_eq].
    + intros Hlock. subst entry. cbn [persistentCacheTime]. now rewrite Hlock.
Qed.

(** C9.  On both refetch paths that start from an entry (forced refresh,
    or the entry judged stale), once the [get] and the [del] have succeeded:
    every event of the call after the [get] and the [del] comes after them,
    so no [getDoc] precedes the [del]; and if the fetch fails with [err],
    the call rejects with [err], no [set] is issued, and the store is the
    old one without the entry. *)
Theorem refetch_failure_leaves_no_entry (fuel : nat) (path : string)
    (options : option Options) (w : World) (e : CacheEntry) :
  faults w OpGet = None ->
  faults w OpDel = None ->
  store w !! path = Some e ->
  JS.truthy_bool (options?.cacheOptions?.enabled) = true ->
  JS.truthy_bool (options?.cacheOptions?.forceRefresh) = true
  \/ (JS.truthy_bool (options?.cacheOptions?.forceRefresh) = false
      /\ cacheIsFresh (clock w (ticks w)) e options = false) ->
  let r := getDocWrapper fuel path options w in
  (exists evs, trace (snd r) = trace w ++ [EvGet path; EvDel path] ++ evs)
  /\ (forall err : Error,
        fst (requestDoc fuel path (options?.retryOptions) w) = Err err ->
        fst r = Rejected err
        /\ (exists evs,
              Forall (is_fetch_event path) evs
              /\ trace (snd r) = trace w ++ [EvGet path; EvDel path] ++ evs)
        /\ store (snd r) = delete path (store w)
        /\ store (snd r) !! path = None).
Proof.
  intros Hget Hdel He Hen Hpath r. subst r.
  rewrite (getDocWrapper_body fuel path options w (or_introl Hget)).
  assert (Hbody : exists w2 : World,
             remote w2 = remote w /\ calls w2 = calls w /\ faults w2 = faults w
             /\ store w2 = store w /\ trace w2 = trace w ++ [EvGet path]
             /\ getDocBody fuel path options w
                = bind (del path) (fun _ => fetchAndStore fuel path options) w2).
  { destruct Hpath as [Hforce | [Hforce Hstale]].
    - exists (log (EvGet path) w). repeat split.
      now apply getDocBody_force with e.
    - exists (tick (log (EvGet path) w)). repeat split.
      now apply getDocBody_stale with e. }
  destruct Hbody as (w2 & Hr & Hc & Hf & Hs2 & Ht2 & ->).
  destruct (refetch_outcome fuel path options w w2 Hr Hc Hf Hdel)
    as (Hres & evs & Hevs & _ & Hshape).
  cbn [fst snd]. split.
  - destruct (fst (requestDoc fuel path (options?.retryOptions) w)) as [snap| |].
    + destruct Hshape as (Ht & _). eexists. rewrite Ht, Ht2. trace_eq.
    + destruct Hshape as (Ht & _). eexists. rewrite Ht, Ht2. trace_eq.
    + destruct Hshape as (Ht & _). eexists. rewrite Ht, Ht2. trace_eq.
  - intros err Herr. rewrite Herr in Hres, Hshape.
    destruct Hshape as (Ht & Hs & _). repeat split.
    + now rewrite Hres.
    + exists evs. split; [exact Hevs|]. rewrite Ht, Ht2. trace_eq.
    + now rewrite Hs, Hs2.
    + rewrite Hs, Hs2. apply lookup_delete_eq.
Qed.

(** C1 (as amended).  With the cache enabled and [forceRefresh] truthy, on
    a path that has an entry, once the [get] and the [del] have succeeded:
    the call settles as the fetch does, resolving with the fetched payload
    when it succeeds; its events are the [get], the [del], the events of the
    fetch (at least one [getDoc]) and, on success, the [set] of the new
    entry; and the old entry is gone from the store, which holds the new
    entry if the fetch and the [set] succeeded and no entry for the path
    otherwise.  Neither the entry nor [cacheTime] plays any part. *)
Theorem forceRefresh_refetches (fuel : nat) (path : string)
    (options : option Options) (w : World) (e : CacheEntry) :
  JS.truthy_bool (options?.cacheOptions?.enabled) = true ->
  JS.truthy_bool (options?.cacheOptions?.forceRefresh) = true ->
  store w !! path = Some e ->
  faults w OpGet = None ->
  faults w OpDel = None ->
  let r := getDocWrapper fuel path options w in
  let res := fst (requestDoc fuel path (options?.retryOptions) w) in
  fst r = settle (res_map data res)
  /\ (forall snap : DocumentSnapshot, res = Ok snap -> fst r = Resolved (data snap))
  /\ (exists evs,
        Forall (is_fetch_event path) evs
        /\ (0 < fuel -> In (EvGetDoc path) evs)
        /\ trace (snd r)
           = trace w ++ [EvGet path; EvDel path] ++ evs
               ++ match res with
                  | Ok snap => [EvSet path (newDocEntry (clock w (ticks w)) snap options)]
                  | _ => []
                  end)
  /\ store (snd r)
     = match res, faults w OpSet with
       | Ok snap, None =>
           <[path := newDocEntry (clock w (ticks w)) snap options]> (store w)
       | _, _ => delete path (store w)
       end.
Proof.
  intros Hen Hforce He Hget Hdel r res. subst r.
  rewrite (getDocWrapper_body fuel path options w (or_introl Hget)),
    (getDocBody_force fuel path options w e Hget He Hen Hforce).
  destruct (refetch_outcome fuel path options w (log (EvGet path) w)
              eq_refl eq_refl eq_refl Hdel)
    as (Hres & evs & Hevs & Hn & Hshape).
  fold res in Hres, Hshape. cbn [fst snd]. rewrite Hres.
  split; [reflexivity|]. split; [now intros snap ->|]. split.
  - exists evs. split; [exact Hevs|]. split; [exact Hn|].
    destruct res as [snap| |]; destruct Hshape as (Ht & _); rewrite Ht; trace_eq.
  - destruct res as [snap| |]; destruct Hshape as (_ & Hs & _); rewrite Hs;
      reflexivity.
Qed.

(** ** Every call has a shape *)

Lemma stored_or_not (fuel : nat) (path : string) (options : option Options)
    (w w2 : World) (pre : list Event) (r : Res (option LooseObject) * World) :
  faults w OpGet = None ->
  fetch_prefix w path pre ->
  trace w2 = trace w ++ [EvGet path] ->
  unhandled w2 = unhandled w ->
  let res := fst (requestDoc fuel path (options?.retryOptions) w) in
  fst r = res_map data res ->
  (exists evs,
      Forall (is_fetch_event path) evs
      /\ match res with
         | Ok snap =>
             exists entry,
               trace (snd r) = trace w ++ pre ++ evs ++ [EvSet path entry]
               /\ unhandled (snd r)
                  = unhandled w2 ++ match faults w OpSet with
                                    | None => []
                                    | Some se => [ErrStore se]
                                    end
         | _ =>
             trace (snd r) = trace w ++ pre ++ evs
             /\ unhandled (snd r) = unhandled w2
         end) ->
  exists new dropped,
    trace (snd r) = trace w ++ new
    /\ unhandled (snd r) = unhandled w ++ dropped
    /\ CallShape w path res (settle (fst r)) new dropped.
Proof.
  intros Hget Hpre Ht2 Hu2 res Hres (evs & Hevs & Hshape). rewrite Hres.
  destruct res as [snap|err|] eqn:Hr.
  - destruct Hshape as (entry & Ht & Hu).
    eexists _, _. split; [exact Ht|]. split; [rewrite Hu, Hu2; reflexivity|].
    now apply shape_stored.
  - destruct Hshape as (Ht & Hu).
    exists (pre ++ evs), []. split; [exact Ht|].
    split; [rewrite Hu, Hu2; now rewrite app_nil_r|].
    now apply (shape_unstored w path (Err err)).
  - destruct Hshape as (Ht & Hu).
    exists (pre ++ evs), []. split; [exact Ht|].
    split; [rewrite Hu, Hu2; now rewrite app_nil_r|].
    now apply (shape_unstored w path Hang).
Qed.

(** Every call has one of the six shapes. *)
Lemma call_shape (fuel : nat) (path : string) (options : option Options) (w : World) :
  let r := getDocWrapper fuel path options w in
  let res := fst (requestDoc fuel path (options?.retryOptions) w) in
  exists new dropped,
    trace (snd r) = trace w ++ new
    /\ unhandled (snd r) = unhandled w ++ dropped
    /\ CallShape w path res (fst r) new dropped.
Proof.
  intros r res. subst r.
  destruct (faults w OpGet) as [se|] eqn:Hget.
  { destruct (throws_on_open w) eqn:Hthrow.
    - rewrite (getDocWrapper_thrown fuel path options w se Hget Hthrow).
      exists [], [ErrStore se]. simpl. rewrite app_nil_r. repeat split.
      now apply shape_open_thrown.
    - rewrite (getDocWrapper_body fuel path options w (or_intror Hthrow)).
      exists [EvGet path], []. unfold getDocBody, bind, get. rewrite Hget.
      simpl. rewrite app_nil_r. repeat split. now apply shape_get_rejected. }
  rewrite (getDocWrapper_body fuel path options w (or_introl Hget)). cbn [fst snd].
  assert (Hserved : forall payload : option LooseObject,
             getDocBody fuel path options w = (Ok payload, tick (log (EvGet path) w)) ->
             exists new dropped,
               trace (snd (getDocBody fuel path options w)) = trace w ++ new
               /\ unhandled (snd (getDocBody fuel path options w))
                  = unhandled w ++ dropped
               /\ CallShape w path res
                    (settle (fst (getDocBody fuel path options w))) new dropped).
  { intros payload ->. exists [EvGet path], []. simpl. rewrite app_nil_r.
    repeat split. now apply shape_served. }
  destruct (JS.truthy_bool (options?.cacheOptions?.enabled)) eqn:Hen.
  - destruct (store w !! path) as [e|] eqn:He.
    + destruct (JS.truthy_bool (options?.cacheOptions?.forceRefresh)) eqn:Hforce.
      * rewrite (getDocBody_force fuel path options w e Hget He Hen Hforce).
        destruct (faults w OpDel) as [se|] eqn:Hdel.
        -- exists [EvGet path; EvDel path], []. unfold bind, del. cbn [faults log].
           rewrite Hdel. simpl. rewrite <- app_assoc, app_nil_r.
           repeat split. now apply shape_del_rejected.
        -- destruct (refetch_outcome fuel path options w (log (EvGet path) w)
                       eq_refl eq_refl eq_refl Hdel)
             as (Hres & evs & Hevs & _ & Hshape).
           apply (stored_or_not fuel path options w (log (EvGet path) w)
                    [EvGet path; EvDel path]);
             [exact Hget | right; now split | reflexivity | reflexivity
             | exact Hres |].
           exists evs. split; [exact Hevs|].
           destruct (fst (requestDoc fuel path (options?.retryOptions) w))
             as [snap| |]; [eexists|..];
             destruct Hshape as (Ht & _ & Hu); (split; [rewrite Ht; trace_eq | exact Hu]).
      * destruct (cacheIsFresh (clock w (ticks w)) e options) eqn:Hfresh.
        -- apply (Hserved (doc e)). unfold getDocBody, bind, get, Date_now, ret.
           rewrite Hget, He, Hen, Hforce. cbn [negb clock ticks log].
           now rewrite Hfresh.
        -- rewrite (getDocBody_stale fuel path options w e Hget He Hen Hforce Hfresh).
           destruct (faults w OpDel) as [se|] eqn:Hdel.
           ++ exists [EvGet path; EvDel path], []. unfold bind, del.
              cbn [faults log tick]. rewrite Hdel. simpl.
              rewrite <- app_assoc, app_nil_r.
              repeat split. now apply shape_del_rejected.
           ++ destruct (refetch_outcome fuel path options w
                          (tick (log (EvGet path) w))
                          eq_refl eq_refl eq_refl Hdel)
                as (Hres & evs & Hevs & _ & Hshape).
              apply (stored_or_not fuel path options w (tick (log (EvGet path) w))
                       [EvGet path; EvDel path]);
                [exact Hget | right; now split | reflexivity | reflexivity
                | exact Hres |].
              exists evs. split; [exact Hevs|].
              destruct (fst (requestDoc fuel path (options?.retryOptions) w))
                as [snap| |]; [eexists|..];
                destruct Hshape as (Ht & _ & Hu);
                (split; [rewrite Ht; trace_eq | exact Hu]).
    + rewrite (getDocBody_empty fuel path options w Hget He Hen).
      destruct (fetchAndStore_outcome fuel path options w (log (EvGet path) w)
                  eq_refl eq_refl eq_refl)
        as (Hres & evs & Hevs & _ & Hshape).
      apply (stored_or_not fuel path options w (log (EvGet path) w) [EvGet path]);
        [exact Hget | now left | reflexivity | reflexivity | exact Hres |].
      exists evs. split; [exact Hevs|].
      destruct (fst (requestDoc fuel path (options?.retryOptions) w))
        as [snap| |]; [eexists|..];
        destruct Hshape as (Ht & _ & Hu); (split; [rewrite Ht; trace_eq | exact Hu]).
  - destruct (JS.lt (elapsed (clock w (ticks w)) (store w !! path))
                (JS.toNumber ((store w !! path)?.persistentCacheTime))) eqn:Hfresh.
    + apply (Hserved ((store w !! path)?.doc)).
      unfold getDocBody, bind, get, Date_now, ret.
      rewrite Hget, Hen. cbn [negb clock ticks log]. now rewrite Hfresh.
    + destruct (requestDoc_uniform fuel path (options?.retryOptions) w)
        as (res' & n & evs & Hevs & _ & Hreq).
      assert (Hbody : getDocBody fuel path options w
                      = (res_map data res', shift n evs (tick (log (EvGet path) w)))).
      { unfold getDocBody, bind, get, Date_now, ret.
        rewrite Hget, Hen. cbn [negb clock ticks log]. rewrite Hfresh.
        run_fetch Hreq. now destruct res'. }
      assert (Hres' : res = res').
      { subst res. now rewrite (Hreq w eq_refl eq_refl). }
      rewrite Hbody, Hres'. exists ([EvGet path] ++ evs), []. simpl.
      rewrite app_nil_r, <- app_assoc. repeat split.
      apply (shape_unstored w path res' [EvGet path] evs Hget);
        [now left | exact Hevs].
Qed.

(** Once the store is open, a call stays pending only if its fetch never
    settles. *)
Lemma getDocWrapper_settles (fuel : nat) (path : string) (options : option Options)
    (w : World) :
  faults w OpGet = None \/ throws_on_open w = false ->
  fst (requestDoc fuel path (options?.retryOptions) w) <> Hang ->
  fst (getDocWrapper fuel path options w) <> Pending.
Proof.
  intros Hopen Hres.
  destruct (call_shape fuel path options w) as (new & dropped & _ & _ & Hshape).
  inversion Hshape as [se Hget Hthrow Hout | payload Hget Hout | se Hget Hdel Hout
                      | pre evs Hget Hpre Hevs Hout
                      | pre evs snap entry Hget Hpre Hevs Hok Hout
                      | se Hget Hthrow Hout];
    try discriminate.
  - destruct (fst (requestDoc fuel path (options?.retryOptions) w));
      [discriminate | discriminate | contradiction].
  - destruct Hopen as [Hopen | Hopen]; congruence.
Qed.

Lemma fetch_events_no_store_op (path : string) (evs : list Event) (ev : Event) :
  Forall (is_fetch_event path) evs -> In ev evs -> is_fetch_event path ev.
Proof.
  intros H Hin. rewrite List.Forall_forall in H. now apply H.
Qed.





(** ** The locked time to live *)



(** A lock of [0] is falsy: line 157 takes it for no lock, and the age is
    compared with this call's [cacheTime.time]. *)
Lemma cacheIsFresh_zero_lock (now : Z) (e : CacheEntry) (options : option Options) :
  persistentCacheTime e = Some (JS.Fin 0) ->
  cacheIsFresh now e options
  = JS.lt (JS.Fin (now - fetchedAt e))
      (JS.toNumber (options?.cacheOptions?.cacheTime?.time)).
Proof.
  intros Ht. unfold cacheIsFresh. rewrite Ht, elapsed_entry. reflexivity.
Qed.

(** C6, at the input where the code departs from it.  A first call locks
    a time to live of [0] on an empty cache; [docA] is fetched and stored
    under that lock.  Ten milliseconds later, [docB] being upstream, a
    second call with a one-time [cacheTime.time] of 1000, no
    [bypassLockedTime] and no [locked], finds the entry stale by its locked
    time to live ([10 < 0] is false) and yet resolves with the cached
    [docA] without calling the remote: the age was compared with the
    one-time 1000. *)
Theorem zero_lock_is_ignored :
  let lock0 := cacheOnly (mkCacheOptions (Some true)
                            (Some (mkCacheTime (Some true) (Some (JS.Fin 0)) None)) None) in
  let oneTime := cacheOnly (mkCacheOptions (Some true)
                              (Some (mkCacheTime None (Some (JS.Fin 1000)) None)) None) in
  let w1 := snd (getDocWrapper 3 "p" lock0 (world ∅ no_faults remote_changing)) in
  let r := getDocWrapper 3 "p" oneTime w1 in
  store w1 !! "p" = Some (lockedEntry (JS.Fin 0))
  /\ clock w1 (ticks w1) = 10%Z
  /\ JS.lt (JS.Fin (10 - fetchedAt (lockedEntry (JS.Fin 0)))) (JS.Fin 0) = false
  /\ remote w1 (calls w1) "p" = inr (createDoc (Some docB))
  /\ fst r = Resolved (Some docA)
  /\ calls (snd r) = calls w1
  /\ store (snd r) !! "p" = Some (lockedEntry (JS.Fin 0)).
Proof.
  vm_compute. repeat split; reflexivity.
Qed.

(** ** Where the specification departs from the code *)

(** C1 fails without the cache enabled.  [forceRefresh] is set, the path
    has an entry, [enabled] is left out: the entry, locked and fresh, is
    served; it is not deleted, the remote (which holds [docB]) is not
    called, and the payload is the cached [docA]. *)
Lemma forceRefresh_needs_enabled :
  let options := cacheOnly (mkCacheOptions None None (Some true)) in
  let w := world {[ "p" := lockedEntry (JS.Fin 1000) ]} no_faults remote_fresh in
  let r := getDocWrapper 3 "p" options w in
  JS.truthy_bool (options?.cacheOptions?.forceRefresh) = true
  /\ store w !! "p" = Some (lockedEntry (JS.Fin 1000))
  /\ fst r = Resolved (Some docA)
  /\ fst r <> Resolved (Some docB)
  /\ store (snd r) !! "p" = Some (lockedEntry (JS.Fin 1000))
  /\ trace (snd r) = [EvGet "p"]
  /\ calls (snd r) = 0.
Proof.
  vm_compute. repeat split; try reflexivity. discriminate.
Qed.


(** C3 fails at [N = 1], and with an allow-list.  For [N = 1] the pattern
    is a remote that answers at once; under [maxRetries = N - 1 = 0] the
    fetch does not reject, it succeeds.  For [N = 2] with an allow-list
    that does not hold the code of the first failure, the fetch under
    [maxRetries = 2] does not succeed at the second attempt: it rejects
    with the wrapper error after one. *)
Lemma retry_budget_boundaries :
  let zero := mkRetryOptions (Some true) (Some (JS.Fin 0)) None None in
  let w := world ∅ no_faults (remote_after 0) in
  let listed := mkRetryOptions (Some true) (Some (JS.Fin 2)) None
                  (Some ["test-error-code-2"]) in
  let w' := world ∅ no_faults (remote_after 1) in
  (fails_then_succeeds w "p" (1 - 1) (fun _ => testError) (createDoc (Some docA))
   /\ fst (requestDoc 3 "p" (Some zero) w) = Ok (createDoc (Some docA)))
  /\ (fails_then_succeeds w' "p" (2 - 1) (fun _ => testError) (createDoc (Some docA))
      /\ fst (requestDoc 3 "p" (Some listed) w') = Err ErrNotRetryable
      /\ calls (snd (requestDoc 3 "p" (Some listed) w')) = 1).
Proof.
  repeat split; try reflexivity.
  - intros i Hi. lia.
  - intros i Hi. assert (i = 0) as -> by lia. reflexivity.
Qed.

(** ** The theorems at work *)

Lemma forceRefresh_refetches_witness :
  let options := cacheOnly (mkCacheOptions (Some true)
                              (Some (mkCacheTime None (Some JS.PosInf) None))
                              (Some true)) in
  let w := world {[ "p" := lockedEntry JS.PosInf ]} no_faults remote_fresh in
  let r := getDocWrapper 3 "p" options w in
  fst r = Resolved (Some docB)
  /\ store (snd r) = <[ "p" := mkEntry (Some docB) 0 None ]> (store w).
Proof.
  intros options w r.
  destruct (forceRefresh_refetches 3 "p" options w (lockedEntry JS.PosInf)
              eq_refl eq_refl eq_refl eq_refl eq_refl)
    as (_ & Hout & _ & Hstore).
  split; [exact (Hout (createDoc (Some docB)) eq_refl) | exact Hstore].
Defined.


Lemma retry_budget_witness :
  let ro := mkRetryOptions (Some true) (Some (JS.Fin 3)) None None in
  let w := world ∅ no_faults (remote_after 2) in
  fst (requestDoc 3 "p" (Some ro) w) = Ok (createDoc (Some docA))
  /\ fst (requestDoc 3 "p" (Some (with_maxRetries (Some (JS.Fin 2)) ro)) w)
     = Err (ErrRemote testError).
Proof.
  intros ro w.
  assert (Hpattern : fails_then_succeeds w "p" (3 - 1) (fun _ => testError)
                       (createDoc (Some docA))).
  { split; [|reflexivity]. intros i Hi.
    destruct i as [|[|i]]; [reflexivity | reflexivity | lia]. }
  destruct (retry_budget 3 3 "p" ro w (fun _ => testError) (createDoc (Some docA))
              ltac:(lia) eq_refl eq_refl)
    as (_ & Hok & Hless).
  split.
  - apply Hok; [exact Hpattern | reflexivity | lia].
  - apply Hless; [lia | exact Hpattern | reflexivity | simpl; lia].
Defined.

Lemma allow_list_policy_witness :
  let refusing := mkRetryOptions (Some true) (Some (JS.Fin 5)) None
                    (Some ["test-error-code-2"]) in
  let retrying := mkRetryOptions (Some true) (Some (JS.Fin 3)) None
                    (Some ["random-test-code"; "test-error-code"]) in
  let w := world ∅ no_faults remote_down in
  (fst (requestDoc 3 "p" (Some refusing) w) = Err ErrNotRetryable
   /\ calls (snd (requestDoc 3 "p" (Some refusing) w)) = 1)
  /\ (fst (requestDoc 3 "p" (Some retrying) w) = Err (ErrRemote testError)
      /\ calls (snd (requestDoc 3 "p" (Some retrying) w)) = 3).
Proof.
  intros refusing retrying w. split.
  - destruct (allow_list_policy 3 0 "p" refusing ["test-error-code-2"] w
                (fun _ => testError) testError eq_refl eq_refl)
      as (Hrefused & _).
    + intros i Hi. lia.
    + reflexivity.
    + lia.
    + apply Hrefused; reflexivity.
  - destruct (allow_list_policy 3 2 "p" retrying
                ["random-test-code"; "test-error-code"] w
                (fun _ => testError) testError eq_refl eq_refl)
      as (_ & _ & Hexhausted).
    + intros i Hi. destruct i as [|[|i]]; [repeat split .. | lia].
    + reflexivity.
    + lia.
    + apply Hexhausted. reflexivity.
Defined.

Lemma disabled_call_reads_only_witness :
  let options := cacheOnly (mkCacheOptions None None None) in
  let w := world {[ "p" := lockedEntry (JS.Fin 1000) ]} no_faults remote_fresh in
  let r := getDocWrapper 3 "p" options w in
  store (snd r) = store w /\ fst r = Resolved (Some docA).
Proof.
  intros options w r.
  destruct (disabled_call_reads_only 3 "p" options w eq_refl)
    as ((Hstore & _) & Hserve).
  split; [exact Hstore|].
  destruct (Hserve eq_refl) as (Hhit & _).
  exact (proj1 (Hhit (lockedEntry (JS.Fin 1000)) (JS.Fin 1000) eq_refl eq_refl eq_refl)).
Defined.

Lemma relock_checks_new_time_witness :
  let options := cacheOnly (mkCacheOptions (Some true)
                              (Some (mkCacheTime (Some true) (Some (JS.Fin 50)) None))
                              None) in
  let w := world {[ "p" := lockedEntry (JS.Fin 1) ]} no_faults remote_fresh in
  let r := getDocWrapper 3 "p" options w in
  fst r = Resolved (Some docA) /\ store (snd r) = store w.
Proof.
  intros options w r.
  destruct (relock_checks_new_time 3 "p" options w (lockedEntry (JS.Fin 1))
              eq_refl eq_refl eq_refl eq_refl eq_refl eq_refl)
    as (Hfresh & _).
  destruct (Hfresh eq_refl) as (Hout & Hstore & _).
  split; [exact Hout | exact Hstore].
Defined.

Lemma stale_refetch_rewrites_entry_witness :
  let options := cacheOnly (mkCacheOptions (Some true)
                              (Some (mkCacheTime None (Some (JS.Fin 0)) (Some true)))
                              None) in
  let w := world {[ "p" := lockedEntry JS.PosInf ]} no_faults remote_fresh in
  let r := getDocWrapper 3 "p" options w in
  fst r = Resolved (Some docB)
  /\ store (snd r) !! "p" = Some (mkEntry (Some docB) 10 None).
Proof.
  intros options w r.
  destruct (stale_refetch_rewrites_entry 3 "p" options w (lockedEntry JS.PosInf)
              eq_refl eq_refl eq_refl eq_refl eq_refl)
    as (_ & Hrefetch).
  destruct (Hrefetch eq_refl (createDoc (Some docB)) eq_refl)
    as (Hout & _ & Hstore & _).
  split; [exact Hout | exact (proj2 (Hstore eq_refl))].
Defined.

Lemma refetch_failure_leaves_no_entry_witness :
  let options := cacheOnly (mkCacheOptions (Some true) None (Some true)) in
  let w := world {[ "p" := plainEntry ]} no_faults remote_down in
  let r := getDocWrapper 3 "p" options w in
  fst r = Rejected (ErrRemote testError) /\ store (snd r) !! "p" = None.
Proof.
  intros options w r.
  destruct (refetch_failure_leaves_no_entry 3 "p" options w plainEntry
              eq_refl eq_refl eq_refl eq_refl (or_introl eq_refl))
    as (_ & Hfail).
  destruct (Hfail (ErrRemote testError) eq_refl) as (Hout & _ & _ & Hgone).
  split; [exact Hout | exact Hgone].
Defined.

Lemma falsy_budget_and_delay_default_witness :
  let zero := Some (mkRetryOptions (Some true) (Some (JS.Fin 0)) None None) in
  let w := world ∅ no_faults (remote_after 2) in
  requestDoc 5 "p" zero w
  = requestDoc 5 "p" (Some (mkRetryOptions (Some true) (Some (JS.Fin 3)) None None)) w
  /\ fst (requestDoc 5 "p" zero w) = Ok (createDoc (Some docA))
  /\ calls (snd (requestDoc 5 "p" zero w)) = 0 + 3.
Proof.
  intros zero w.
  destruct (falsy_budget_and_delay_default 5 "p" (Some true) (Some (JS.Fin 0))
              None None None w (fun _ => testError) (createDoc (Some docA)) eq_refl)
    as (Hsame & _ & _ & Hthree & _).
  split; [exact Hsame|].
  destruct (Hthree eq_refl ltac:(lia) (fun i _ => eq_refl)) as (Hok & _).
  apply Hok. split; [|reflexivity].
  intros i Hi. destruct i as [|[|i]]; [reflexivity | reflexivity | lia].
Defined.

(** * Further properties of the fetcher *)


(** X1.  A fetch that settles leaves exactly this behind: one [getDoc] on
    the path, then [k] times a wait of [retryDelay || 0] followed by one more
    [getDoc].  No wait precedes the first attempt or follows the last, the
    waits are of the configured delay, and the store, the clock and the
    unhandled rejections are as before. *)
Theorem fetch_leaves_attempts_and_waits (fuel : nat) (path : string)
    (ro : option RetryOptions) (w : World) :
  fst (requestDoc fuel path ro w) <> Hang ->
  exists k : nat,
    snd (requestDoc fuel path ro w)
    = shift (S k)
        (EvGetDoc path
           :: retry_events path (JS.or_default (ro?.retryDelay) (JS.Fin 0)) k)
        w.
Proof.
  unfold requestDoc. apply request_trace.
Qed.

(** X2.  Without retrying ([enabled] falsy, or no [retryOptions] at all),
    or with a budget that leaves no retry ([0 < maxRetries - 1] false:
    [maxRetries] is [1], negative or [-Infinity]), the fetch is a single
    attempt: no wait, and the answer of the remote as it is; a failure is
    the remote's own error, never the wrapper, allow-list or not. *)
Theorem single_attempt (fuel : nat) (path : string) (ro : option RetryOptions)
    (w : World) :
  1 <= fuel ->
  JS.truthy_bool (ro?.retry_enabled) = false
  \/ JS.lt (JS.Fin 0)
       (JS.sub (JS.or_default (ro?.maxRetries) (JS.Fin 3)) (JS.Fin 1)) = false ->
  requestDoc fuel path ro w
  = (match remote w (calls w) path with
     | inl e => Err (ErrRemote e)
     | inr snap => Ok snap
     end,
     called (log (EvGetDoc path) w)).
Proof.
  intros Hfuel Hsingle. destruct fuel as [|fuel]; [lia|]. unfold requestDoc.
  destruct (remote w (calls w) path) as [e|snap] eqn:Hrem.
  - destruct Hsingle as [Hen | Hlt].
    + now apply request_step_disabled.
    + now apply request_step_exhausted.
  - now apply request_step_ok.
Qed.

(** X3.  With retrying enabled and an allow-list configured, a first
    failure that the budget would let retry is refused when the list is
    empty or when the error has no [code]: the fetch rejects with the
    wrapper error after that one attempt.  An empty allow-list thus makes
    every failure non-retryable. *)
Theorem empty_list_or_no_code_refuses (fuel : nat) (path : string)
    (ro : RetryOptions) (codes : list string) (w : World) (e : FirestoreError) :
  1 <= fuel ->
  JS.truthy_bool (retry_enabled ro) = true ->
  retryOnErrorCode ro = Some codes ->
  JS.lt (JS.Fin 0)
    (JS.sub (JS.or_default (maxRetries ro) (JS.Fin 3)) (JS.Fin 1)) = true ->
  remote w (calls w) path = inl e ->
  codes = [] \/ code e = None ->
  requestDoc fuel path (Some ro) w
  = (Err ErrNotRetryable, called (log (EvGetDoc path) w)).
Proof.
  intros Hfuel Hen Hcodes Hlt Hrem Hno. destruct fuel as [|fuel]; [lia|].
  unfold requestDoc. apply (request_step_refused _ _ _ _ _ _ _ e); try assumption.
  unfold allowed. cbn [chain]. rewrite Hcodes.
  destruct Hno as [-> | ->]; [now destruct (code e) | reflexivity].
Qed.

(** X4.  [maxRetries = Infinity] is an unbounded budget: with retrying
    enabled, if the remote fails [k] times, each time with an error the
    allow-list (if any) lets through, and then answers, the fetch succeeds
    with that answer after [k + 1] attempts, however large [k] is. *)
Theorem infinite_budget_retries_until_success (fuel k : nat) (path : string)
    (ro : RetryOptions) (w : World) (errs : nat -> FirestoreError)
    (snap : DocumentSnapshot) :
  JS.truthy_bool (retry_enabled ro) = true ->
  maxRetries ro = Some JS.PosInf ->
  fails_then_succeeds w path k errs snap ->
  (forall i, i < k -> allowed (Some ro) (errs i) = true) ->
  k < fuel ->
  fst (requestDoc fuel path (Some ro) w) = Ok snap
  /\ calls (snd (requestDoc fuel path (Some ro) w)) = calls w + k + 1.
Proof.
  intros Hen Hmax [Hfail Hok] Hal Hfuel. unfold requestDoc. cbn [chain].
  rewrite Hmax. cbn [JS.or_default JS.truthy].
  replace fuel with (k + S (fuel - S k)) by lia.
  rewrite (request_retries path (Some ro) _ _ k _ 0 w errs Hen).
  - rewrite (request_step_ok _ _ _ _ _ _ _ snap).
    + simpl. rewrite iter_retried_calls. split; [reflexivity | lia].
    + rewrite iter_retried_remote, iter_retried_calls. exact Hok.
  - intros i Hi. repeat split; [now apply Hfail | now apply Hal].
Qed.

(** X5.  Under [maxRetries = Infinity] with retrying enabled, a remote
    that keeps failing with errors the allow-list lets through is retried
    for ever: whatever the fuel, the fetch has not settled when it runs out,
    and every unit of fuel went into one more attempt. *)
Theorem infinite_budget_never_gives_up (fuel : nat) (path : string)
    (ro : RetryOptions) (w : World) (errs : nat -> FirestoreError) :
  JS.truthy_bool (retry_enabled ro) = true ->
  maxRetries ro = Some JS.PosInf ->
  (forall i, remote w (calls w + i) path = inl (errs i)
             /\ allowed (Some ro) (errs i) = true) ->
  fst (requestDoc fuel path (Some ro) w) = Hang
  /\ calls (snd (requestDoc fuel path (Some ro) w)) = calls w + fuel.
Proof.
  intros Hen Hmax Hdown. unfold requestDoc. cbn [chain].
  rewrite Hmax. cbn [JS.or_default JS.truthy].
  set (rd := JS.or_default (retryDelay ro) (JS.Fin 0)).
  assert (Hrun : request fuel path (Some ro) rd JS.PosInf 0 w
                 = (Hang, Nat.iter fuel (retried path rd) w)).
  { pose proof (request_retries path (Some ro) rd JS.PosInf fuel 0 0 w errs Hen)
      as H.
    rewrite Nat.add_0_r in H. rewrite H; [reflexivity|].
    intros i Hi. destruct (Hdown i) as [H1 H2]. repeat split; assumption. }
  rewrite Hrun. cbn [fst snd]. rewrite iter_retried_calls. split; reflexivity.
Qed.

(** X6.  Given that every call of the remote settles (the only kind this
    world has), the fetch under a finite, whole budget settles within it:
    with [maxRetries || 3] the integer [z] and fuel for [max 1 z] attempts,
    the result is a snapshot or an error, reached after at least one and at
    most [max 1 z] calls of [getDoc]. *)
Theorem finite_budget_settles (fuel : nat) (path : string) (ro : option RetryOptions)
    (w : World) (z : Z) :
  JS.or_default (ro?.maxRetries) (JS.Fin 3) = JS.Fin z ->
  1 <= fuel ->
  (z <= Z.of_nat fuel)%Z ->
  fst (requestDoc fuel path ro w) <> Hang
  /\ calls w + 1 <= calls (snd (requestDoc fuel path ro w))
  /\ calls (snd (requestDoc fuel path ro w)) <= calls w + Nat.max 1 (Z.to_nat z).
Proof.
  intros Hz Hfuel Hle. split; [|split].
  - now apply requestDoc_settles with z.
  - now apply requestDoc_calls_lower.
  - unfold requestDoc.
    pose proof (request_attempts_bound_Z path ro
                  (JS.or_default (ro?.retryDelay) (JS.Fin 0))
                  (JS.or_default (ro?.maxRetries) (JS.Fin 3)) z Hz fuel 0 w) as H.
    lia.
Qed.

(** * Further properties of a call *)

Lemma written_store (path : string) (entry : CacheEntry) (w : World) :
  store (written path entry w)
  = match faults w OpSet with
    | None => <[path := entry]> (store w)
    | Some _ => store w
    end.
Proof.
  unfold written, floating, set. now destruct (faults w OpSet).
Qed.

Lemma written_trace (path : string) (entry : CacheEntry) (w : World) :
  trace (written path entry w) = trace w ++ [EvSet path entry].
Proof.
  unfold written, floating, set. now destruct (faults w OpSet).
Qed.

Lemma written_calls (path : string) (entry : CacheEntry) (w : World) :
  calls (written path entry w) = calls w.
Proof.
  unfold written, floating, set. now destruct (faults w OpSet).
Qed.

Lemma written_faults (path : string) (entry : CacheEntry) (w : World) :
  faults (written path entry w) = faults w.
Proof.
  unfold written, floating, set. now destruct (faults w OpSet).
Qed.

Lemma written_remote (path : string) (entry : CacheEntry) (w : World) :
  remote (written path entry w) = remote w.
Proof.
  unfold written, floating, set. now destruct (faults w OpSet).
Qed.

Lemma written_clock (path : string) (entry : CacheEntry) (w : World) :
  clock (written path entry w) = clock w /\ ticks (written path entry w) = ticks w.
Proof.
  unfold written, floating, set. now destruct (faults w OpSet).
Qed.

(** [fetchAndStore] as a world transformer. *)
Lemma fetchAndStore_world (fuel : nat) (path : string) (options : option Options)
    (w w2 : World) (res : Res DocumentSnapshot) (n : nat) (evs : list Event) :
  (forall w' : World,
      remote w' = remote w -> calls w' = calls w ->
      requestDoc fuel path (options?.retryOptions) w' = (res, shift n evs w')) ->
  remote w2 = remote w -> calls w2 = calls w ->
  fetchAndStore fuel path options w2
  = (res_map data res,
     match res with
     | Ok snap =>
         written path (newDocEntry (clock w2 (ticks w2)) snap options)
           (tick (shift n evs w2))
     | _ => shift n evs w2
     end).
Proof.
  intros Hreq Hr Hc. unfold fetchAndStore. unfold bind at 1.
  rewrite (Hreq w2 Hr Hc). destruct res as [snap| |]; try reflexivity.
  unfold bind, Date_now, ret, written, floating, set.
  cbn [clock ticks faults shift tick]. now destruct (faults w2 OpSet).
Qed.

(** The paths of a call, each with the world it ends in.  [res], [n] and
    [evs] are the result, the calls and the events of the fetch. *)
Lemma call_paths (fuel : nat) (path : string) (options : option Options) (w : World) :
  exists (res : Res DocumentSnapshot) (n : nat) (evs : list Event),
    Forall (is_fetch_event path) evs
    /\ requestDoc fuel path (options?.retryOptions) w = (res, shift n evs w)
    /\ let r := getDocWrapper fuel path options w in
       let w1 := log (EvGet path) w in
       (exists se,
           faults w OpGet = Some se
           /\ ((throws_on_open w = true
                /\ r = (Pending, drop_rejection (ErrStore se) w))
               \/ (throws_on_open w = false
                   /\ r = (Rejected (ErrStore se), w1))))
       \/ (faults w OpGet = None
           /\ ((exists payload, r = (Resolved payload, tick w1))
               \/ (exists w2 se,
                      after_get path w w2 /\ faults w OpDel = Some se
                      /\ r = (Rejected (ErrStore se), log (EvDel path) w2))
               \/ (JS.truthy_bool (options?.cacheOptions?.enabled) = false
                   /\ r = (settle (res_map data res), shift n evs (tick w1)))
               \/ (exists w2,
                      JS.truthy_bool (options?.cacheOptions?.enabled) = true
                      /\ (w2 = w1
                          \/ exists w0,
                              after_get path w w0 /\ faults w OpDel = None
                              /\ w2 = deleted path w0)
                      /\ r = (settle (res_map data res),
                              match res with
                              | Ok snap =>
                                  written path
                                    (newDocEntry (clock w2 (ticks w2)) snap options)
                                    (tick (shift n evs w2))
                              | _ => shift n evs w2
                              end)))).
Proof.
  destruct (requestDoc_uniform fuel path (options?.retryOptions) w)
    as (res & n & evs & Hevs & _ & Hreq).
  exists res, n, evs. split; [exact Hevs|]. split; [now apply Hreq|].
  intros r w1. subst r.
  destruct (faults w OpGet) as [se|] eqn:Hget.
  { left. exists se. split; [reflexivity|].
    destruct (throws_on_open w) eqn:Hthrow.
    - left. split; [reflexivity|]. now apply getDocWrapper_thrown.
    - right. split; [reflexivity|].
      rewrite (getDocWrapper_body fuel path options w (or_intror Hthrow)).
      unfold getDocBody, bind, get. now rewrite Hget. }
  rewrite (getDocWrapper_body fuel path options w (or_introl Hget)).
  right. split; [reflexivity|].
  assert (Hrefetch : forall w0 : World,
             after_get path w w0 ->
             bind (del path) (fun _ => fetchAndStore fuel path options) w0
             = match faults w OpDel with
               | Some se => (Err (ErrStore se), log (EvDel path) w0)
               | None => fetchAndStore fuel path options (deleted path w0)
               end).
  { intros w0 [-> | ->]; unfold bind, del, deleted; cbn [faults log tick];
      now destruct (faults w OpDel). }
  assert (Hstore : forall w2 : World,
             remote w2 = remote w -> calls w2 = calls w ->
             (settle (fst (fetchAndStore fuel path options w2)),
              snd (fetchAndStore fuel path options w2))
             = (settle (res_map data res),
                match res with
                | Ok snap =>
                    written path (newDocEntry (clock w2 (ticks w2)) snap options)
                      (tick (shift n evs w2))
                | _ => shift n evs w2
                end)).
  { intros w2 Hr Hc.
    now rewrite (fetchAndStore_world fuel path options w w2 res n evs Hreq Hr Hc). }
  destruct (JS.truthy_bool (options?.cacheOptions?.enabled)) eqn:Hen.
  - destruct (store w !! path) as [e|] eqn:He.
    + destruct (JS.truthy_bool (options?.cacheOptions?.forceRefresh)) eqn:Hforce.
      * rewrite (getDocBody_force fuel path options w e Hget He Hen Hforce).
        fold w1.
        rewrite (Hrefetch w1 (or_introl eq_refl)).
        destruct (faults w OpDel) as [se|] eqn:Hdel.
        -- right. left. exists w1, se. repeat split. now left.
        -- right. right. right. exists (deleted path w1).
           split; [reflexivity|]. split.
           ++ right. exists w1. repeat split. now left.
           ++ now apply Hstore.
      * destruct (cacheIsFresh (clock w (ticks w)) e options) eqn:Hfresh.
        -- left. exists (doc e).
           unfold getDocBody, bind, get, Date_now, ret.
           rewrite Hget, He, Hen, Hforce. cbn [negb clock ticks log].
           now rewrite Hfresh.
        -- rewrite (getDocBody_stale fuel path options w e Hget He Hen Hforce Hfresh).
           fold w1.
           rewrite (Hrefetch (tick w1) (or_intror eq_refl)).
           destruct (faults w OpDel) as [se|] eqn:Hdel.
           ++ right. left. exists (tick w1), se. repeat split. now right.
           ++ right. right. right. exists (deleted path (tick w1)).
              split; [reflexivity|]. split.
              ** right. exists (tick w1). repeat split. now right.
              ** now apply Hstore.
    + rewrite (getDocBody_empty fuel path options w Hget He Hen).
      fold w1.
      right. right. right. exists w1. split; [reflexivity|].
      split; [now left | now apply Hstore].
  - destruct (JS.lt (elapsed (clock w (ticks w)) (store w !! path))
                (JS.toNumber ((store w !! path)?.persistentCacheTime))) eqn:Hfresh.
    + left. exists ((store w !! path)?.doc).
      unfold getDocBody, bind, get, Date_now, ret.
      rewrite Hget, Hen. cbn [negb clock ticks log]. now rewrite Hfresh.
    + right. right. left. split; [reflexivity|].
      unfold getDocBody, bind, get, Date_now, ret.
      rewrite Hget, Hen. cbn [negb clock ticks log]. rewrite Hfresh.
      run_fetch Hreq. now destruct res.
Qed.

Lemma fetch_events_on_path (path : string) (evs : list Event) :
  Forall (is_fetch_event path) evs -> Forall (on_path path) evs.
Proof.
  induction 1 as [|ev l Hev _ IH]; constructor; [|exact IH].
  destruct ev; simpl in *; auto; contradiction.
Qed.

Lemma fetch_events_no_set (path : string) (evs : list Event) (entry : CacheEntry) :
  Forall (is_fetch_event path) evs -> ~ In (EvSet path entry) evs.
Proof.
  intros Hevs Hin. exact (fetch_events_no_store_op path evs _ Hevs Hin).
Qed.

(** As [trace_eq], for an equation whose right-hand side is still open. *)
Ltac trace_open := simpl; rewrite <- ?app_assoc; simpl; reflexivity.

(** Splits a call into its paths; [Hr] is the outcome and final world. *)
Ltac call_cases fuel path options w :=
  let res := fresh "res" in
  let n := fresh "n" in
  let evs := fresh "evs" in
  let Hevs := fresh "Hevs" in
  let Hreq := fresh "Hreq" in
  let Hcases := fresh "Hcases" in
  let se := fresh "se" in
  let payload := fresh "payload" in
  let w2 := fresh "w2" in
  let w0 := fresh "w0" in
  let Hget := fresh "Hget" in
  let Hdel := fresh "Hdel" in
  let Hen := fresh "Hen" in
  let Hr := fresh "Hr" in
  let Hthrow := fresh "Hthrow" in
  destruct (call_paths fuel path options w)
    as (res & n & evs & Hevs & Hreq & Hcases);
  cbv zeta in Hcases;
  destruct Hcases
    as [(se & Hget & [(Hthrow & Hr) | (Hthrow & Hr)])
       | (Hget & [(payload & Hr)
                 | [(w2 & se & [-> | ->] & Hdel & Hr)
                   | [(Hen & Hr)
                     | (w2 & Hen & [-> | (w0 & [-> | ->] & Hdel & ->)] & Hr)]]])];
  rewrite Hr; cbn [fst snd].

(** X7.  A call reads and writes the store under its own path only: every
    other key holds after the call what it held before, and every [get],
    [del], [set] and [getDoc] of the call is on that path. *)
Theorem call_touches_only_its_path (fuel : nat) (path : string)
    (options : option Options) (w : World) :
  let r := getDocWrapper fuel path options w in
  (forall q : string, q <> path -> store (snd r) !! q = store w !! q)
  /\ exists new, trace (snd r) = trace w ++ new /\ Forall (on_path path) new.
Proof.
  intros r. subst r.
  call_cases fuel path options w.
  - split; [reflexivity|]. exists []. split; [now rewrite app_nil_r | constructor].
  - split; [reflexivity|]. exists [EvGet path]. split; [reflexivity|].
    repeat constructor.
  - split; [reflexivity|]. exists [EvGet path]. split; [reflexivity|].
    repeat constructor.
  - split; [reflexivity|]. exists [EvGet path; EvDel path].
    split; [trace_eq | repeat constructor].
  - split; [reflexivity|]. exists [EvGet path; EvDel path].
    split; [trace_eq | repeat constructor].
  - split; [reflexivity|]. exists (EvGet path :: evs).
    split; [trace_eq | constructor; [reflexivity | now apply fetch_events_on_path]].
  - destruct res as [snap| |].
    + split.
      * intros q Hq. rewrite written_store. cbn [faults store tick shift log].
        destruct (faults w OpSet); [reflexivity|].
        now rewrite lookup_insert_ne by congruence.
      * eexists. split; [rewrite written_trace; trace_open|].
        constructor; [reflexivity|]. apply Forall_app. split;
          [now apply fetch_events_on_path | repeat constructor].
    + split; [reflexivity|]. exists (EvGet path :: evs).
      split; [trace_eq | constructor; [reflexivity | now apply fetch_events_on_path]].
    + split; [reflexivity|]. exists (EvGet path :: evs).
      split; [trace_eq | constructor; [reflexivity | now apply fetch_events_on_path]].
  - destruct res as [snap| |].
    + split.
      * intros q Hq. rewrite written_store.
        cbn [faults store tick shift log deleted with_store].
        destruct (faults w OpSet);
          rewrite ?lookup_insert_ne, ?lookup_delete_ne by congruence; reflexivity.
      * eexists. split; [rewrite written_trace; trace_open|].
        do 2 (constructor; [reflexivity|]). apply Forall_app. split;
          [now apply fetch_events_on_path | repeat constructor].
    + split; [intros q Hq; simpl; now rewrite lookup_delete_ne by congruence|].
      exists (EvGet path :: EvDel path :: evs).
      split; [trace_eq|].
      do 2 (constructor; [reflexivity|]). now apply fetch_events_on_path.
    + split; [intros q Hq; simpl; now rewrite lookup_delete_ne by congruence|].
      exists (EvGet path :: EvDel path :: evs).
      split; [trace_eq|].
      do 2 (constructor; [reflexivity|]). now apply fetch_events_on_path.
  - destruct res as [snap| |].
    + split.
      * intros q Hq. rewrite written_store.
        cbn [faults store tick shift log deleted with_store].
        destruct (faults w OpSet);
          rewrite ?lookup_insert_ne, ?lookup_delete_ne by congruence; reflexivity.
      * eexists. split; [rewrite written_trace; trace_open|].
        do 2 (constructor; [reflexivity|]). apply Forall_app. split;
          [now apply fetch_events_on_path | repeat constructor].
    + split; [intros q Hq; simpl; now rewrite lookup_delete_ne by congruence|].
      exists (EvGet path :: EvDel path :: evs).
      split; [trace_eq|].
      do 2 (constructor; [reflexivity|]). now apply fetch_events_on_path.
    + split; [intros q Hq; simpl; now rewrite lookup_delete_ne by congruence|].
      exists (EvGet path :: EvDel path :: evs).
      split; [trace_eq|].
      do 2 (constructor; [reflexivity|]). now apply fetch_events_on_path.
Qed.

(** X8.  Once the store has been opened without a throw, and given that
    every call of the remote and of the store settles (the only kind this
    world has), a call under a finite, whole budget settles within it: with
    [maxRetries || 3] the integer [z] and fuel for [max 1 z] attempts the
    promise is resolved or rejected, not left pending, after at most
    [max 1 z] calls of the remote. *)
Theorem call_settles_within_budget (fuel : nat) (path : string)
    (options : option Options) (w : World) (z : Z) :
  JS.or_default (options?.retryOptions?.maxRetries) (JS.Fin 3) = JS.Fin z ->
  1 <= fuel ->
  (z <= Z.of_nat fuel)%Z ->
  faults w OpGet = None \/ throws_on_open w = false ->
  let r := getDocWrapper fuel path options w in
  fst r <> Pending
  /\ calls w <= calls (snd r)
  /\ calls (snd r) <= calls w + Nat.max 1 (Z.to_nat z).
Proof.
  intros Hz Hfuel Hle Hopen r. subst r. split.
  - apply getDocWrapper_settles; [exact Hopen|]. now apply requestDoc_settles with z.
  - pose proof (request_attempts_bound_Z path (options?.retryOptions)
                  (JS.or_default (options?.retryOptions?.retryDelay) (JS.Fin 0))
                  (JS.or_default (options?.retryOptions?.maxRetries) (JS.Fin 3))
                  z Hz fuel 0 w) as Hb.
    fold (requestDoc fuel path (options?.retryOptions) w) in Hb.
    call_cases fuel path options w;
      rewrite Hreq in Hb; cbn [snd calls shift] in Hb;
      try destruct res; rewrite ?written_calls; simpl; lia.
Qed.

(** Takes apart a membership in a list of events. *)
Ltac in_events Hin :=
  repeat match type of Hin with
         | In _ (_ :: _) => destruct Hin as [Hin|Hin]; [try discriminate Hin|]
         | In _ (_ ++ _) => apply in_app_or in Hin; destruct Hin as [Hin|Hin]
         | In _ [] => destruct Hin
         end.

(** Reads the new events of a call off its final world. *)
Ltac new_events Hnew :=
  rewrite ?written_trace in Hnew; simpl in Hnew;
  rewrite <- ?app_assoc in Hnew; simpl in Hnew;
  apply app_inv_head in Hnew.

(** X9.  What a call caches is what it returns.  If a call issues the
    [set] of an entry, then the cache is enabled for it, the fetch has
    succeeded, the entry holds the fetched payload, which is the payload the
    call resolves with, its [fetchedAt] is a reading of the clock taken by
    this call, its lock is this call's [cacheTime.time] if [locked] is
    truthy and absent otherwise, and the [set] is the last event of the call
    and the only [set]. *)
Theorem cached_is_returned (fuel : nat) (path : string)
    (options : option Options) (w : World) :
  let r := getDocWrapper fuel path options w in
  forall (new : list Event) (entry : CacheEntry),
    trace (snd r) = trace w ++ new ->
    In (EvSet path entry) new ->
    JS.truthy_bool (options?.cacheOptions?.enabled) = true
    /\ (exists snap,
          fst (requestDoc fuel path (options?.retryOptions) w) = Ok snap
          /\ doc entry = data snap)
    /\ fst r = Resolved (doc entry)
    /\ persistentCacheTime entry
       = (if JS.truthy_bool (options?.cacheOptions?.cacheTime?.locked)
          then options?.cacheOptions?.cacheTime?.time
          else None)
    /\ (fetchedAt entry = clock w (ticks w)
        \/ fetchedAt entry = clock w (S (ticks w)))
    /\ exists pre,
        new = pre ++ [EvSet path entry]
        /\ forall entry', ~ In (EvSet path entry') pre.
Proof.
  intros r. subst r.
  call_cases fuel path options w; intros new entry Hnew Hin;
    try (new_events Hnew; subst new; exfalso; in_events Hin;
         now apply (fetch_events_no_set path evs entry Hevs)).
  - exfalso. simpl in Hnew. rewrite <- (app_nil_r (trace w)) in Hnew at 1.
    apply app_inv_head in Hnew. subst new. destruct Hin.
  - destruct res as [snap| |];
      [| new_events Hnew; subst new; exfalso; in_events Hin;
         now apply (fetch_events_no_set path evs entry Hevs) ..].
    new_events Hnew. subst new. in_events Hin;
      [exfalso; now apply (fetch_events_no_set path evs entry Hevs)|].
    injection Hin as <-. rewrite Hreq. cbn [fst].
    split; [exact Hen|]. split; [now exists snap|]. split; [reflexivity|].
    split; [reflexivity|]. split; [now left|].
    exists (EvGet path :: evs). split; [reflexivity|].
    intros entry' Hin'. in_events Hin'.
    now apply (fetch_events_no_set path evs entry' Hevs).
  - destruct res as [snap| |];
      [| new_events Hnew; subst new; exfalso; in_events Hin;
         now apply (fetch_events_no_set path evs entry Hevs) ..].
    new_events Hnew. subst new. in_events Hin;
      [exfalso; now apply (fetch_events_no_set path evs entry Hevs)|].
    injection Hin as <-. rewrite Hreq. cbn [fst].
    split; [exact Hen|]. split; [now exists snap|]. split; [reflexivity|].
    split; [reflexivity|]. split; [now left|].
    exists (EvGet path :: EvDel path :: evs). split; [reflexivity|].
    intros entry' Hin'. in_events Hin'.
    now apply (fetch_events_no_set path evs entry' Hevs).
  - destruct res as [snap| |];
      [| new_events Hnew; subst new; exfalso; in_events Hin;
         now apply (fetch_events_no_set path evs entry Hevs) ..].
    new_events Hnew. subst new. in_events Hin;
      [exfalso; now apply (fetch_events_no_set path evs entry Hevs)|].
    injection Hin as <-. rewrite Hreq. cbn [fst].
    split; [exact Hen|]. split; [now exists snap|]. split; [reflexivity|].
    split; [reflexivity|]. split; [now right|].
    exists (EvGet path :: EvDel path :: evs). split; [reflexivity|].
    intros entry' Hin'. in_events Hin'.
    now apply (fetch_events_no_set path evs entry' Hevs).
Qed.

(** X10.  On an empty cache with the cache enabled (lines 99-123), once
    the [get] has succeeded: no [del] is issued, [forceRefresh] or not; the
    call settles as the fetch does; the clock is read only once the fetch
    has succeeded, and then once: a fetch that fails or never settles leaves
    the clock unread; on success the call issues the [set] of an entry with
    the fetched payload, that reading of the clock, and this call's
    [cacheTime.time] as lock if [locked] is truthy; a [set] that succeeds
    leaves that entry in the store, and in every other case the store is as
    before. *)
Theorem empty_cache_fetches_and_stores (fuel : nat) (path : string)
    (options : option Options) (w : World) :
  faults w OpGet = None ->
  store w !! path = None ->
  JS.truthy_bool (options?.cacheOptions?.enabled) = true ->
  let r := getDocWrapper fuel path options w in
  let res := fst (requestDoc fuel path (options?.retryOptions) w) in
  let entry (snap : DocumentSnapshot) :=
    mkEntry (data snap) (clock w (ticks w))
      (if JS.truthy_bool (options?.cacheOptions?.cacheTime?.locked)
       then options?.cacheOptions?.cacheTime?.time
       else None) in
  fst r = settle (res_map data res)
  /\ (exists evs,
        Forall (is_fetch_event path) evs
        /\ trace (snd r)
           = trace w ++ [EvGet path] ++ evs
               ++ match res with
                  | Ok snap => [EvSet path (entry snap)]
                  | _ => []
                  end)
  /\ store (snd r)
     = match res, faults w OpSet with
       | Ok snap, None => <[path := entry snap]> (store w)
       | _, _ => store w
       end
  /\ ticks (snd r)
     = match res with
       | Ok _ => S (ticks w)
       | _ => ticks w
       end.
Proof.
  intros Hget He Hen r res entry. subst r.
  rewrite (getDocWrapper_body fuel path options w (or_introl Hget)),
    (getDocBody_empty fuel path options w Hget He Hen).
  destruct (requestDoc_uniform fuel path (options?.retryOptions) w)
    as (res' & n & evs & Hevs & _ & Hreq).
  rewrite (fetchAndStore_world fuel path options w (log (EvGet path) w)
             res' n evs Hreq eq_refl eq_refl).
  assert (Hres : res = res') by (subst res; now rewrite (Hreq w eq_refl eq_refl)).
  clearbody res. subst res'. cbn [fst snd].
  split; [reflexivity|]. split; [|split].
  - exists evs. split; [exact Hevs|].
    destruct res as [snap| |]; [rewrite written_trace|..]; trace_eq.
  - destruct res as [snap| |]; [|reflexivity..].
    rewrite written_store. cbn [faults tick shift log].
    now destruct (faults w OpSet).
  - destruct res as [snap| |]; [|reflexivity..].
    now destruct (written_clock path
                    (newDocEntry (clock (log (EvGet path) w)
                                    (ticks (log (EvGet path) w))) snap options)
                    (tick (shift n evs (log (EvGet path) w)))) as [_ ->].
Qed.

(** ** Freshness *)


Lemma cacheIsFresh_infinite (now : Z) (e : CacheEntry) (options : option Options) :
  options?.cacheOptions?.cacheTime?.time = Some JS.PosInf ->
  persistentCacheTime e = None
  \/ JS.truthy_bool (options?.cacheOptions?.cacheTime?.locked) = true ->
  cacheIsFresh now e options = true.
Proof.
  intros Htime [Hno | Hlock]; unfold cacheIsFresh; rewrite Htime, elapsed_entry.
  - now rewrite Hno.
  - rewrite Hlock. now destruct (_ && _).
Qed.



(** X13.  An infinite time to live makes the call idempotent.  On an
    empty cache, with the cache enabled, [cacheTime.time = Infinity], no
    forced refresh, a store that takes the [get] and the [set], and a
    remote that answers [snap] at once: the first call resolves with the
    payload of [snap], and so does every later call with the same
    arguments, however the clock and the remote move on; the remote is
    called once in all, and the store stays as the first call left it. *)
Theorem infinite_ttl_is_idempotent (fuel : nat) (path : string)
    (options : option Options) (w : World) (snap : DocumentSnapshot) :
  1 <= fuel ->
  faults w OpGet = None ->
  faults w OpSet = None ->
  store w !! path = None ->
  remote w (calls w) path = inr snap ->
  JS.truthy_bool (options?.cacheOptions?.enabled) = true ->
  JS.truthy_bool (options?.cacheOptions?.forceRefresh) = false ->
  options?.cacheOptions?.cacheTime?.time = Some JS.PosInf ->
  let r1 := getDocWrapper fuel path options w in
  fst r1 = Resolved (data snap)
  /\ calls (snd r1) = calls w + 1
  /\ forall k : nat,
      let rk := getDocWrapper fuel path options
                  (call_again fuel path options k (snd r1)) in
      fst rk = Resolved (data snap)
      /\ calls (snd rk) = calls w + 1
      /\ store (snd rk) = store (snd r1).
Proof.
  intros Hfuel Hget Hset He Hrem Hen Hforce Htime r1.
  destruct fuel as [|f]; [lia|].
  set (entry := newDocEntry (clock w (ticks w)) snap options).
  set (w1 := written path entry (tick (shift 1 [EvGetDoc path] (log (EvGet path) w)))).
  assert (Hreq : forall w' : World,
             remote w' = remote w -> calls w' = calls w ->
             requestDoc (S f) path (options?.retryOptions) w'
             = (Ok snap, shift 1 [EvGetDoc path] w')).
  { intros w' Hr Hc. unfold requestDoc.
    rewrite (request_step_ok _ _ _ _ _ _ _ snap); [now rewrite attempt_shift|].
    now rewrite Hr, Hc. }
  assert (Hr1 : r1 = (Resolved (data snap), w1)).
  { subst r1.
    rewrite (getDocWrapper_body (S f) path options w (or_introl Hget)),
      (getDocBody_empty (S f) path options w Hget He Hen).
    now rewrite (fetchAndStore_world (S f) path options w (log (EvGet path) w)
                   (Ok snap) 1 [EvGetDoc path] Hreq eq_refl eq_refl). }
  assert (Hf1 : faults w1 = faults w) by (subst w1; now rewrite written_faults).
  assert (Hs1 : store w1 !! path = Some entry).
  { subst w1. rewrite written_store. cbn [faults tick shift log]. rewrite Hset.
    apply lookup_insert_eq. }
  assert (Hc1 : calls w1 = calls w + 1).
  { subst w1. rewrite written_calls. reflexivity. }
  assert (Hserve : forall w' : World,
             faults w' = faults w -> store w' !! path = Some entry ->
             getDocWrapper (S f) path options w'
             = (Resolved (data snap), tick (log (EvGet path) w'))).
  { intros w' Hf' Hs'.
    assert (Hget' : faults w' OpGet = None) by now rewrite Hf'.
    destruct (enabled_entry_decision (S f) path options w' entry Hget' Hs' Hen Hforce)
      as [Hfresh _].
    destruct Hfresh as [Hout Hw].
    - apply cacheIsFresh_infinite; [exact Htime|].
      subst entry. unfold newDocEntry. cbn [persistentCacheTime].
      destruct (JS.truthy_bool (options?.cacheOptions?.cacheTime?.locked));
        [now right | now left].
    - destruct (getDocWrapper (S f) path options w') as [o w'']. simpl in *.
      now subst. }
  assert (Hinv : forall k : nat,
             faults (call_again (S f) path options k w1) = faults w
             /\ store (call_again (S f) path options k w1) = store w1
             /\ calls (call_again (S f) path options k w1) = calls w + 1).
  { induction k as [|k IH]; [now repeat split|].
    destruct IH as (Hfk & Hsk & Hck).
    change (call_again (S f) path options (S k) w1)
      with (snd (getDocWrapper (S f) path options
                   (call_again (S f) path options k w1))).
    rewrite Hserve; [|exact Hfk | now rewrite Hsk].
    cbn [snd faults store calls tick log]. now repeat split. }
  rewrite Hr1. cbn [fst snd]. split; [reflexivity|]. split; [exact Hc1|].
  intros k. destruct (Hinv k) as (Hfk & Hsk & Hck).
  rewrite Hserve; [|exact Hfk | now rewrite Hsk].
  cbn [fst snd calls store tick log]. now repeat split.
Qed.

(** ** The cache-disabled call and the lock *)

Lemma disabled_serves_locked (fuel : nat) (path : string)
    (options : option Options) (w : World) (e : CacheEntry) (t : JS.number) :
  faults w OpGet = None ->
  JS.truthy_bool (options?.cacheOptions?.enabled) = false ->
  store w !! path = Some e ->
  persistentCacheTime e = Some t ->
  JS.lt (JS.Fin (clock w (ticks w) - fetchedAt e)) t = true ->
  getDocWrapper fuel path options w
  = (Resolved (doc e), tick (log (EvGet path) w)).
Proof.
  intros Hget Hen He Ht Hlt.
  rewrite (getDocWrapper_body fuel path options w (or_introl Hget)).
  unfold getDocBody, bind, get, Date_now, ret.
  rewrite Hget, Hen, He. cbn [negb clock ticks log chain].
  rewrite elapsed_entry, Ht. cbn [JS.toNumber]. now rewrite Hlt.
Qed.

(** X14.  A call without the cache enabled never looks at [cacheTime] or
    [forceRefresh]: it does exactly what the same call without any
    [cacheOptions] does, in outcome and in effect. *)
Theorem disabled_ignores_cache_options (fuel : nat) (path : string)
    (co : CacheOptions) (ro : option RetryOptions) (w : World) :
  JS.truthy_bool (enabled co) = false ->
  getDocWrapper fuel path (Some (mkOptions (Some co) ro)) w
  = getDocWrapper fuel path (Some (mkOptions None ro)) w.
Proof.
  intros Hen. unfold getDocWrapper, getDocBody. cbn [chain cacheOptions retryOptions].
  rewrite Hen. reflexivity.
Qed.

(** X15.  A lock is honoured by calls that do not enable the cache.  On
    an empty cache, a first call with the cache enabled and
    [cacheTime = {locked: true, time: T}] fetches [snap] and stores it under
    the lock.  A second call on the same path that does not enable the
    cache, made while the clock has advanced by less than [T], resolves with
    the same payload without calling the remote, and leaves the store as it
    is. *)
Theorem lock_serves_disabled_call (fuel : nat) (path : string)
    (options options' : option Options) (w : World) (snap : DocumentSnapshot)
    (T : Z) :
  1 <= fuel ->
  faults w OpGet = None ->
  faults w OpSet = None ->
  store w !! path = None ->
  remote w (calls w) path = inr snap ->
  JS.truthy_bool (options?.cacheOptions?.enabled) = true ->
  JS.truthy_bool (options?.cacheOptions?.cacheTime?.locked) = true ->
  options?.cacheOptions?.cacheTime?.time = Some (JS.Fin T) ->
  JS.truthy_bool (options'?.cacheOptions?.enabled) = false ->
  (clock w (S (ticks w)) - clock w (ticks w) < T)%Z ->
  let r1 := getDocWrapper fuel path options w in
  let r2 := getDocWrapper fuel path options' (snd r1) in
  fst r1 = Resolved (data snap)
  /\ fst r2 = Resolved (data snap)
  /\ calls (snd r2) = calls w + 1
  /\ store (snd r2) = store (snd r1).
Proof.
  intros Hfuel Hget Hset He Hrem Hen Hlock Htime Hen' Hclock r1 r2.
  destruct fuel as [|f]; [lia|].
  set (entry := mkEntry (data snap) (clock w (ticks w)) (Some (JS.Fin T))).
  set (w1 := written path entry (tick (shift 1 [EvGetDoc path] (log (EvGet path) w)))).
  assert (Hreq : forall w' : World,
             remote w' = remote w -> calls w' = calls w ->
             requestDoc (S f) path (options?.retryOptions) w'
             = (Ok snap, shift 1 [EvGetDoc path] w')).
  { intros w' Hr Hc. unfold requestDoc.
    rewrite (request_step_ok _ _ _ _ _ _ _ snap); [now rewrite attempt_shift|].
    now rewrite Hr, Hc. }
  assert (Hr1 : r1 = (Resolved (data snap), w1)).
  { subst r1.
    rewrite (getDocWrapper_body (S f) path options w (or_introl Hget)),
      (getDocBody_empty (S f) path options w Hget He Hen).
    rewrite (fetchAndStore_world (S f) path options w (log (EvGet path) w)
               (Ok snap) 1 [EvGetDoc path] Hreq eq_refl eq_refl).
    subst w1 entry. unfold newDocEntry. now rewrite Hlock, Htime. }
  assert (Hr2 : r2 = (Resolved (data snap), tick (log (EvGet path) w1))).
  { subst r2. rewrite Hr1. cbn [snd].
    apply (disabled_serves_locked (S f) path options' w1 entry (JS.Fin T)).
    - subst w1. now rewrite written_faults.
    - exact Hen'.
    - subst w1. rewrite written_store. cbn [faults tick shift log]. rewrite Hset.
      apply lookup_insert_eq.
    - reflexivity.
    - subst w1. destruct (written_clock path entry
                            (tick (shift 1 [EvGetDoc path] (log (EvGet path) w))))
        as [-> ->].
      cbn [clock ticks tick shift log fetchedAt entry JS.lt].
      now apply Z.ltb_lt. }
  rewrite Hr2, Hr1. cbn [fst snd calls store tick log].
  repeat split. subst w1. now rewrite written_calls.
Qed.

(** ** The further properties at work *)

Lemma fetch_leaves_attempts_and_waits_witness :
  let ro := Some (mkRetryOptions (Some true) (Some (JS.Fin 3)) (Some (JS.Fin 5000)) None) in
  let w := world ∅ no_faults (remote_after 2) in
  exists k : nat,
    snd (requestDoc 3 "p" ro w)
    = shift (S k) (EvGetDoc "p" :: retry_events "p" (JS.Fin 5000) k) w.
Proof.
  intros ro w. apply (fetch_leaves_attempts_and_waits 3 "p" ro w).
  vm_compute. discriminate.
Defined.

Lemma single_attempt_witness :
  let ro := Some (mkRetryOptions (Some true) (Some (JS.Fin 1)) None
                    (Some ["test-error-code-2"])) in
  let w := world ∅ no_faults remote_down in
  requestDoc 3 "p" ro w
  = (Err (ErrRemote testError), called (log (EvGetDoc "p") w)).
Proof.
  intros ro w.
  apply (single_attempt 3 "p" ro w); [lia | right; reflexivity].
Defined.

Lemma empty_list_or_no_code_refuses_witness :
  let ro := mkRetryOptions (Some true) None None (Some []) in
  let w := world ∅ no_faults remote_down in
  requestDoc 3 "p" (Some ro) w
  = (Err ErrNotRetryable, called (log (EvGetDoc "p") w)).
Proof.
  intros ro w.
  apply (empty_list_or_no_code_refuses 3 "p" ro [] w testError);
    [lia | reflexivity | reflexivity | reflexivity | reflexivity | now left].
Defined.

Lemma infinite_budget_retries_until_success_witness :
  let ro := mkRetryOptions (Some true) (Some JS.PosInf) None None in
  let w := world ∅ no_faults (remote_after 7) in
  fst (requestDoc 8 "p" (Some ro) w) = Ok (createDoc (Some docA))
  /\ calls (snd (requestDoc 8 "p" (Some ro) w)) = 0 + 7 + 1.
Proof.
  intros ro w.
  apply (infinite_budget_retries_until_success 8 7 "p" ro w (fun _ => testError)
           (createDoc (Some docA)) eq_refl eq_refl).
  - split; [|reflexivity]. intros i Hi. simpl. unfold remote_after.
    destruct (Nat.ltb_spec i 7); [reflexivity | lia].
  - intros i Hi. reflexivity.
  - lia.
Defined.

Lemma infinite_budget_never_gives_up_witness :
  let ro := mkRetryOptions (Some true) (Some JS.PosInf) None None in
  let w := world ∅ no_faults remote_down in
  fst (requestDoc 4 "p" (Some ro) w) = Hang
  /\ calls (snd (requestDoc 4 "p" (Some ro) w)) = 0 + 4.
Proof.
  intros ro w.
  apply (infinite_budget_never_gives_up 4 "p" ro w (fun _ => testError)
           eq_refl eq_refl).
  intros i. split; reflexivity.
Defined.

Lemma finite_budget_settles_witness :
  let w := world ∅ no_faults remote_down in
  fst (requestDoc 3 "p" None w) <> Hang
  /\ 0 + 1 <= calls (snd (requestDoc 3 "p" None w))
  /\ calls (snd (requestDoc 3 "p" None w)) <= 0 + Nat.max 1 (Z.to_nat 3).
Proof.
  intros w. apply (finite_budget_settles 3 "p" None w 3 eq_refl); lia.
Defined.

Lemma call_settles_within_budget_witness :
  let options := Some (mkOptions (Some (mkCacheOptions (Some true) None None))
                         (Some (mkRetryOptions (Some true) (Some (JS.Fin 2)) None None))) in
  let w := world ∅ no_faults remote_down in
  fst (getDocWrapper 2 "p" options w) <> Pending
  /\ 0 <= calls (snd (getDocWrapper 2 "p" options w))
  /\ calls (snd (getDocWrapper 2 "p" options w)) <= 0 + Nat.max 1 (Z.to_nat 2).
Proof.
  intros options w.
  apply (call_settles_within_budget 2 "p" options w 2 eq_refl);
    [lia | lia | now left].
Defined.

Lemma cached_is_returned_witness :
  let options := cacheOnly (mkCacheOptions (Some true)
                              (Some (mkCacheTime (Some true) (Some (JS.Fin 70000)) None))
                              None) in
  let w := world ∅ no_faults remote_fresh in
  let entry := mkEntry (Some docB) 0 (Some (JS.Fin 70000)) in
  fst (getDocWrapper 3 "p" options w) = Resolved (doc entry).
Proof.
  intros options w entry.
  destruct (cached_is_returned 3 "p" options w
              [EvGet "p"; EvGetDoc "p"; EvSet "p" entry] entry eq_refl)
    as (_ & _ & Hout & _).
  - right. right. left. reflexivity.
  - exact Hout.
Defined.

Lemma empty_cache_fetches_and_stores_witness :
  let options := cacheOnly (mkCacheOptions (Some true) None None) in
  let w := world ∅ no_faults remote_fresh in
  let r := getDocWrapper 3 "p" options w in
  fst r = Resolved (Some docB)
  /\ store (snd r) = <[ "p" := mkEntry (Some docB) 0 None ]> (store w).
Proof.
  intros options w r.
  destruct (empty_cache_fetches_and_stores 3 "p" options w eq_refl eq_refl eq_refl)
    as (Hout & _ & Hstore & _).
  split; [exact Hout | exact Hstore].
Defined.



Lemma infinite_ttl_is_idempotent_witness :
  let options := cacheOnly (mkCacheOptions (Some true)
                              (Some (mkCacheTime None (Some JS.PosInf) None)) None) in
  let w := world ∅ no_faults remote_changing in
  fst (getDocWrapper 3 "p" options
         (call_again 3 "p" options 2 (snd (getDocWrapper 3 "p" options w))))
  = Resolved (Some docA).
Proof.
  intros options w.
  destruct (infinite_ttl_is_idempotent 3 "p" options w (createDoc (Some docA))
              ltac:(lia) eq_refl eq_refl eq_refl eq_refl eq_refl eq_refl eq_refl)
    as (_ & _ & Hlater).
  exact (proj1 (Hlater 2)).
Defined.

Lemma disabled_ignores_cache_options_witness :
  let co := mkCacheOptions None
              (Some (mkCacheTime (Some true) (Some (JS.Fin 5)) (Some true)))
              (Some true) in
  let w := world {[ "p" := plainEntry ]} no_faults remote_fresh in
  getDocWrapper 3 "p" (Some (mkOptions (Some co) None)) w
  = getDocWrapper 3 "p" (Some (mkOptions None None)) w.
Proof.
  intros co w. apply (disabled_ignores_cache_options 3 "p" co None w). reflexivity.
Defined.

Lemma lock_serves_disabled_call_witness :
  let options := cacheOnly (mkCacheOptions (Some true)
                              (Some (mkCacheTime (Some true) (Some (JS.Fin 70000)) None))
                              None) in
  let w := world ∅ no_faults remote_changing in
  let r1 := getDocWrapper 3 "p" options w in
  let r2 := getDocWrapper 3 "p" None (snd r1) in
  fst r2 = Resolved (Some docA) /\ calls (snd r2) = 0 + 1.
Proof.
  intros options w r1 r2.
  destruct (lock_serves_disabled_call 3 "p" options None w (createDoc (Some docA))
              70000%Z ltac:(lia) eq_refl eq_refl eq_refl eq_refl eq_refl eq_refl
              eq_refl eq_refl eq_refl)
    as (_ & Hsecond & Hcalls & _).
  split; [exact Hsecond | exact Hcalls].
Defined.
